(** * security-manager: privilege database, Cynara administration and
      Cynara check client

    A shallow embedding of [privilege_db.cpp] (class [PrivilegeDb]) and of
    [src/common/cynara.cpp] (classes [CynaraAdminPolicy], [CynaraAdmin] and
    [Cynara]), followed by the properties of these functions.

    Conventions of the embedding.
    - A C++ method that mutates the object behind it and may throw is a
      function from the state before the call to the outcome of the call
      ([Ret] value or [Throw] exception) paired with the state after it: an
      exception does not undo what was done before it was thrown.
    - A reference parameter that the callee assigns ([bool &pkgIdIsNew]) is
      passed in with the caller's value and handed back with the value the
      caller's variable holds when the call ends.
    - [int] is [Z]; no arithmetic is done on the codes involved.
    - Logging ([LogDebug], [LogError], ...) has no effect on the modelled
      state and is left out.
    - Memory allocation is taken to succeed ([strdup], [std::vector]). *)

From Stdlib Require Import ZArith NArith List String Ascii Bool Lia.
From Stdlib Require Import Sorted Permutation DecimalString DecimalN.
Import ListNotations.

Set Implicit Arguments.

(** ** Outcomes and the state-and-exception monad *)

Inductive outcome (E A : Type) : Type :=
| Ret (a : A)
| Throw (e : E).
Arguments Ret {E A} a.
Arguments Throw {E A} e.

(** A computation over a state [S] raising exceptions of type [E]. *)
Definition M (S E A : Type) : Type := S -> outcome E A * S.

Definition ret {S E A} (a : A) : M S E A := fun s => (Ret a, s).

Definition throw {S E A} (e : E) : M S E A := fun s => (Throw e, s).

Definition bind {S E A B} (m : M S E A) (k : A -> M S E B) : M S E B :=
  fun s =>
    match m s with
    | (Ret a, s') => k a s'
    | (Throw e, s') => (Throw e, s')
    end.

Declare Scope eff_scope.
Delimit Scope eff_scope with eff.
Notation "x <- m ;; k" := (bind m (fun x => k))
  (at level 100, m at next level, right associativity) : eff_scope.
Notation "' pat <- m ;; k" := (bind m (fun x => match x with pat => k end))
  (at level 100, pat pattern, m at next level, right associativity) : eff_scope.
Notation "m ;;; k" := (bind m (fun _ => k))
  (at level 100, right associativity) : eff_scope.

(** ** Strings that cross the C interface *)

(** [s.c_str()] read as a C string, as [strdup], [BindString] and the Cynara
    calls do: the characters before the first NUL. *)
Fixpoint c_str (s : string) : string :=
  match s with
  | EmptyString => EmptyString
  | String c rest =>
      if Ascii.eqb c zero then EmptyString else String c (c_str rest)
  end.

(** ** The SQL connection used by [PrivilegeDb] *)

Module DB.

(** Exception classes of [DB::SqlConnection::Exception].  [privilege_db.cpp]
    names [SyntaxError], [InternalError] and the common base [Base];
    [OtherError] stands for any other class derived from [Base]. *)
Inductive SqlException : Type :=
| SyntaxError
| InternalError
| OtherError.

(** Keys of the [Queries] table. *)
Inductive QueryType : Type :=
| EPkgIdExists
| EAddApplication
| ERemoveApplication
| EGetPkgPrivileges
| ERemoveAppPrivileges
| EAddAppPrivileges.

(** A result row: its columns as text. *)
Definition row : Type := list string.

(** Parameters bound to a statement: position and text. *)
Definition bindings : Type := list (nat * string).

(** A prepared statement ([DataCommand]): the query it was prepared from,
    the parameters bound so far, and, once it has been stepped, the rows
    not yet delivered. *)
Record DataCommand : Type := mkCommand {
  cmd_query : QueryType;
  cmd_binds : bindings;
  cmd_pending : option (list row);
  cmd_row : row
}.

Section Connection.

(** The database behind the connection, and what running one statement
    with its bound parameters does to it: the rows it yields or the
    exception it raises, and the database afterwards.  The relational
    engine and the statement texts of the [Queries] table are not part
    of [privilege_db.cpp]; the methods below are embedded over any such
    engine.  Preparing a statement and binding its parameters are taken
    to succeed; a statement fails when it is stepped. *)
Variable database : Type.
Variable exec :
  QueryType -> bindings -> database ->
  outcome SqlException (list row) * database.

Definition PrepareDataCommand (q : QueryType) : DataCommand :=
  mkCommand q [] None [].

Definition BindString (c : DataCommand) (position : nat) (value : string)
  : DataCommand :=
  mkCommand (cmd_query c)
            (filter (fun b => negb (Nat.eqb (fst b) position)) (cmd_binds c)
               ++ [(position, value)])
            (cmd_pending c) (cmd_row c).

Definition deliver (c : DataCommand) (rows : list row)
  : bool * DataCommand :=
  match rows with
  | [] => (false, mkCommand (cmd_query c) (cmd_binds c) None [])
  | r :: rest =>
      (true, mkCommand (cmd_query c) (cmd_binds c) (Some rest) r)
  end.

(** [Step]: [true] when a row is available, [false] when the statement
    is done.  The first step after preparation or [Reset] runs the
    statement to its end: a statement that raises an exception raises it
    at that step, and the rows of one that does not are handed out one
    per step.  An engine that fails at a later step, after it has handed
    out rows, is outside this model. *)
Definition Step (c : DataCommand)
  : M database SqlException (bool * DataCommand) :=
  fun db =>
    match cmd_pending c with
    | Some rows => (Ret (deliver c rows), db)
    | None =>
        match exec (cmd_query c) (cmd_binds c) db with
        | (Ret rows, db') => (Ret (deliver c rows), db')
        | (Throw e, db') => (Throw e, db')
        end
    end.

Definition Reset (c : DataCommand) : DataCommand :=
  mkCommand (cmd_query c) (cmd_binds c) None [].

Definition GetColumnString (c : DataCommand) (column : nat) : string :=
  nth column (cmd_row c) EmptyString.

End Connection.

End DB.

(** ** [PrivilegeDb] *)

Module PrivilegeDb.

Import DB.

(** [PrivilegeDb::Exception].  [privilege_db.cpp] throws [InternalError]
    (from [try_catch]) and [IOError] (from the constructor).
    [ConflictError] is the kind the specification names for a uniqueness
    violation; no statement of [privilege_db.cpp] throws it. *)
Inductive Exception : Type :=
| InternalError
| IOError
| ConflictError.

(** What a caller of a [PrivilegeDb] method can catch: an exception of
    [PrivilegeDb], or one of the SQL connection that crossed
    untranslated. *)
Inductive exn : Type :=
| DbExn (e : Exception)
| SqlExn (e : SqlException).

Section Methods.

Variable database : Type.
Variable exec :
  QueryType -> bindings -> database ->
  outcome SqlException (list row) * database.

(** A step of a statement inside a method body: an SQL exception travels
    up as it is until some [try_catch] meets it. *)
Definition step (c : DataCommand) : M database exn (bool * DataCommand) :=
  fun db =>
    match Step exec c db with
    | (Ret v, db') => (Ret v, db')
    | (Throw e, db') => (Throw (SqlExn e), db')
    end.

(** [try_catch]: [SyntaxError] and [InternalError] of the connection are
    rethrown as [PrivilegeDb::Exception::InternalError]; nothing else is
    caught.  The guarded body may also write the caller's variables it
    captured by reference, so the state it runs over is left open. *)
Definition try_catch {S T} (func : M S exn T) : M S exn T :=
  fun s =>
    match func s with
    | (Throw (SqlExn SyntaxError), s') => (Throw (DbExn InternalError), s')
    | (Throw (SqlExn DB.InternalError), s') =>
        (Throw (DbExn InternalError), s')
    | other => other
    end.

(** What [try_catch] makes of an exception of the connection. *)
Definition rethrown (e : SqlException) : exn :=
  match e with
  | SyntaxError => DbExn InternalError
  | DB.InternalError => DbExn InternalError
  | OtherError => SqlExn OtherError
  end.

Definition PkgIdExists (pkgId : string) : M database exn bool :=
  try_catch
    (let command := PrepareDataCommand EPkgIdExists in
     let command := BindString command 1 (c_str pkgId) in
     ' (found, command) <- step command ;;
     if found
     then let command := Reset command in ret true
     else ret false)%eff.

(** Methods with a [bool &] parameter run over the caller's variable
    paired with the database. *)
Definition with_ref {A} (m : M database exn A) : M (bool * database) exn A :=
  fun st =>
    let '(r, db') := m (snd st) in (r, (fst st, db')).

Definition assign (v : bool) : M (bool * database) exn unit :=
  fun st => (Ret tt, (v, snd st)).

Definition AddApplication (appId pkgId : string)
  : M (bool * database) exn unit :=
  (found <- with_ref (PkgIdExists pkgId) ;;
   assign (negb found) ;;;
   try_catch
     (let command := PrepareDataCommand EAddApplication in
      let command := BindString command 1 (c_str appId) in
      let command := BindString command 2 (c_str pkgId) in
      ' (_, command) <- with_ref (step command) ;;
      let command := Reset command in
      ret tt))%eff.

Definition RemoveApplication (appId pkgId : string)
  : M (bool * database) exn unit :=
  try_catch
    (let command := PrepareDataCommand ERemoveApplication in
     let command := BindString command 1 (c_str appId) in
     let command := BindString command 2 (c_str pkgId) in
     ' (_, command) <- with_ref (step command) ;;
     let command := Reset command in
     found <- with_ref (PkgIdExists pkgId) ;;
     assign (negb found))%eff.

Definition RemoveAppPrivileges (appId : string) : M database exn unit :=
  try_catch
    (let command := PrepareDataCommand ERemoveAppPrivileges in
     let command := BindString command 1 (c_str appId) in
     ' (_, command) <- step command ;;
     ret tt)%eff.

(** Methods with a [std::vector<std::string> &] parameter run over the
    caller's vector paired with the database. *)
Definition with_vector {A} (m : M database exn A)
  : M (list string * database) exn A :=
  fun st =>
    let '(r, db') := m (snd st) in (r, (fst st, db')).

Definition push_back (v : string) : M (list string * database) exn unit :=
  fun st => (Ret tt, (fst st ++ [v], snd st)).

(** The [while (command->Step())] loop of [GetPkgPrivileges].  How often it
    turns is known only once the statement has run: [fuel] bounds the
    number of steps, and [None] says that the bound was reached. *)
Fixpoint GetPkgPrivileges_loop (fuel : nat) (command : DataCommand)
    (st : list string * database)
  : option (outcome exn unit * (list string * database)) :=
  match fuel with
  | O => None
  | S fuel' =>
      match with_vector (step command) st with
      | (Throw e, st') => Some (Throw e, st')
      | (Ret (false, _), st') => Some (Ret tt, st')
      | (Ret (true, command'), st') =>
          let privilege := GetColumnString command' 0 in
          GetPkgPrivileges_loop fuel' command' (snd (push_back privilege st'))
      end
  end.

(** [try_catch] around a body that is bounded by fuel. *)
Definition try_catch_bounded {S T} (func : S -> option (outcome exn T * S))
  : S -> option (outcome exn T * S) :=
  fun s =>
    match func s with
    | None => None
    | Some r => Some (try_catch (fun _ => r) s)
    end.

Definition GetPkgPrivileges (fuel : nat) (pkgId : string)
  : list string * database ->
    option (outcome exn unit * (list string * database)) :=
  try_catch_bounded
    (fun st =>
       let command := PrepareDataCommand EGetPkgPrivileges in
       let command := BindString command 1 (c_str pkgId) in
       GetPkgPrivileges_loop fuel command st).

(** The [for] loop of [UpdateAppPrivileges] over the privileges. *)
Fixpoint UpdateAppPrivileges_loop (command : DataCommand)
    (privileges : list string) : M database exn unit :=
  match privileges with
  | [] => ret tt
  | privilege :: rest =>
      (let command := BindString command 2 (c_str privilege) in
       ' (_, command) <- step command ;;
       let command := Reset command in
       UpdateAppPrivileges_loop command rest)%eff
  end.

Definition UpdateAppPrivileges (appId : string) (privileges : list string)
  : M database exn unit :=
  try_catch
    (let command := PrepareDataCommand EAddAppPrivileges in
     let command := BindString command 1 (c_str appId) in
     RemoveAppPrivileges appId ;;;
     UpdateAppPrivileges_loop command privileges)%eff.

(** The insert statement of [UpdateAppPrivileges] between two turns of its
    loop: prepared from [EAddAppPrivileges], not stepped, [appId] bound at
    position 1 and at most a privilege at position 2. *)
Definition insert_command (appId : string) (c : DataCommand) : Prop :=
  cmd_query c = EAddAppPrivileges
  /\ cmd_pending c = None
  /\ filter (fun b => negb (Nat.eqb (fst b) 2)) (cmd_binds c) = [(1, appId)].

(** The first column of a row. *)
Definition first_column (r : row) : string := nth 0 r EmptyString.

(** An outcome that is no exception of [PrivilegeDb] other than
    [InternalError]. *)
Definition plain {A} (r : outcome exn A) : Prop :=
  forall e, r = Throw e -> e <> DbExn IOError /\ e <> DbExn ConflictError.

(** An outcome a caller of these methods can meet besides a normal return:
    [PrivilegeDb::Exception::InternalError], or an exception of the
    connection that [try_catch] does not name. *)
Definition translated {A} (r : outcome exn A) : Prop :=
  forall e, r = Throw e -> e = DbExn InternalError \/ e = SqlExn OtherError.

End Methods.

(** *** The store behind the connection *)

(** Modelled from the spec: the relational store and the six statements of
    the [Queries] table ([privilege_db.h] and the database schema), which
    [privilege_db.cpp] runs but does not contain.  Section 4.1 of the
    specification gives their meaning: [PkgIdExists] finds a row iff some
    application is associated with the package; [AddApplication] inserts
    the row (appId, pkgId) and violates the store's constraint when that
    row is a duplicate; [RemoveApplication] deletes the row (appId, pkgId);
    [GetPkgPrivileges] yields the privileges granted to the applications
    of the package in storage order; [RemoveAppPrivileges] deletes every
    grant of the application; [AddAppPrivileges] inserts one grant. *)
Record store : Type := mkStore {
  apps : list (string * string);
  grants : list (string * string)
}.

Definition empty_store : store := mkStore [] [].

Definition param (b : bindings) (position : nat) : option string :=
  match find (fun x => Nat.eqb (fst x) position) b with
  | Some x => Some (snd x)
  | None => None
  end.

Definition same_row (x y : string * string) : bool :=
  String.eqb (fst x) (fst y) && String.eqb (snd x) (snd y).

Definition pkg_of (st : store) (appId : string) : list string :=
  map snd (filter (fun r => String.eqb (fst r) appId) (apps st)).

(** "Some application is associated with [pkgId]", and the same decided on
    the rows. *)
Definition package_has_application (st : store) (pkgId : string) : Prop :=
  exists appId, In (appId, pkgId) (apps st).

Definition has_pkg (pkgId : string) (st : store) : bool :=
  existsb (fun r => String.eqb (snd r) pkgId) (apps st).

(** The store after the row (appId, pkgId) has been inserted, and after
    it has been deleted. *)
Definition inserted (appId pkgId : string) (st : store) : store :=
  mkStore (apps st ++ [(appId, pkgId)]) (grants st).

Definition deleted (appId pkgId : string) (st : store) : store :=
  mkStore (filter (fun r => negb (same_row (appId, pkgId) r)) (apps st))
          (grants st).

(** The store after every grant of [appId] has been deleted, and after one
    grant has been inserted. *)
Definition without_grants (appId : string) (st : store) : store :=
  mkStore (apps st)
          (filter (fun g => negb (String.eqb (fst g) appId)) (grants st)).

Definition with_grant (appId privilege : string) (st : store) : store :=
  mkStore (apps st) (grants st ++ [(appId, privilege)]).

(** Modelled from the spec: see [store].  [violation] is the exception
    class with which the connection reports a violated constraint; a
    parameter left unbound is NULL, which matches no row and may not be
    inserted. *)
Definition exec_spec (violation : SqlException) (q : QueryType)
    (b : bindings) (st : store)
  : outcome SqlException (list row) * store :=
  match q with
  | EPkgIdExists =>
      match param b 1 with
      | Some pkgId =>
          (Ret (map (fun r => [snd r])
                  (filter (fun r => String.eqb (snd r) pkgId) (apps st))),
           st)
      | None => (Ret [], st)
      end
  | EAddApplication =>
      match param b 1, param b 2 with
      | Some appId, Some pkgId =>
          if existsb (same_row (appId, pkgId)) (apps st)
          then (Throw violation, st)
          else (Ret [], inserted appId pkgId st)
      | _, _ => (Throw violation, st)
      end
  | ERemoveApplication =>
      match param b 1, param b 2 with
      | Some appId, Some pkgId => (Ret [], deleted appId pkgId st)
      | _, _ => (Ret [], st)
      end
  | EGetPkgPrivileges =>
      match param b 1 with
      | Some pkgId =>
          (Ret (map (fun g => [snd g])
                  (filter (fun g => existsb (String.eqb pkgId)
                                      (pkg_of st (fst g)))
                     (grants st))),
           st)
      | None => (Ret [], st)
      end
  | ERemoveAppPrivileges =>
      match param b 1 with
      | Some appId => (Ret [], without_grants appId st)
      | None => (Ret [], st)
      end
  | EAddAppPrivileges =>
      match param b 1, param b 2 with
      | Some appId, Some privilege => (Ret [], with_grant appId privilege st)
      | _, _ => (Throw violation, st)
      end
  end.

(** An outcome that is not the exception [ConflictError]. *)
Definition no_conflict {A} (r : outcome exn A) : Prop :=
  forall e, r = Throw e -> e <> DbExn ConflictError.

End PrivilegeDb.

(** ** Numbers as text *)

(** [std::to_string] of an [unsigned int]: decimal, no sign, no padding. *)
Definition to_string (n : N) : string :=
  NilZero.string_of_uint (N.to_uint n).

(** [static_cast<unsigned int>] on a 32-bit [unsigned int]. *)
Definition to_unsigned_int (n : N) : N := (n mod 2 ^ 32)%N.

(** ** Constants of the Cynara library *)

(** The return codes of [cynara-error.h] that [cynara.cpp] names.  The header
    belongs to the Cynara library, not to this repository: the codes are
    taken as given. *)
Class cynara_error_h : Type := {
  CYNARA_API_ACCESS_ALLOWED : Z;
  CYNARA_API_ACCESS_DENIED : Z;
  CYNARA_API_SUCCESS : Z;
  CYNARA_API_CACHE_MISS : Z;
  CYNARA_API_MAX_PENDING_REQUESTS : Z;
  CYNARA_API_OUT_OF_MEMORY : Z;
  CYNARA_API_INVALID_PARAM : Z;
  CYNARA_API_SERVICE_NOT_AVAILABLE : Z;
  CYNARA_API_METHOD_NOT_SUPPORTED : Z;
  CYNARA_API_OPERATION_NOT_ALLOWED : Z;
  CYNARA_API_OPERATION_FAILED : Z;
  CYNARA_API_BUCKET_NOT_FOUND : Z
}.

(** The case labels of the [switch] in [checkCynaraError], in source order.
    C++ accepts the [switch] only if they are pairwise different. *)
Definition case_labels `{cynara_error_h} : list Z :=
  [ CYNARA_API_SUCCESS; CYNARA_API_ACCESS_ALLOWED; CYNARA_API_ACCESS_DENIED;
    CYNARA_API_MAX_PENDING_REQUESTS; CYNARA_API_OUT_OF_MEMORY;
    CYNARA_API_INVALID_PARAM; CYNARA_API_SERVICE_NOT_AVAILABLE;
    CYNARA_API_METHOD_NOT_SUPPORTED; CYNARA_API_OPERATION_NOT_ALLOWED;
    CYNARA_API_OPERATION_FAILED; CYNARA_API_BUCKET_NOT_FOUND ].

(** The values that Cynara's [cynara-error.h] gives these codes. *)
Definition libcynara_error_h : cynara_error_h := {|
  CYNARA_API_ACCESS_ALLOWED := 2;
  CYNARA_API_ACCESS_DENIED := 1;
  CYNARA_API_SUCCESS := 0;
  CYNARA_API_CACHE_MISS := -1;
  CYNARA_API_MAX_PENDING_REQUESTS := -2;
  CYNARA_API_OUT_OF_MEMORY := -3;
  CYNARA_API_INVALID_PARAM := -4;
  CYNARA_API_SERVICE_NOT_AVAILABLE := -5;
  CYNARA_API_METHOD_NOT_SUPPORTED := -6;
  CYNARA_API_OPERATION_NOT_ALLOWED := -7;
  CYNARA_API_OPERATION_FAILED := -8;
  CYNARA_API_BUCKET_NOT_FOUND := -9
|}.

(** The constants of [cynara-admin-types.h] that [cynara.cpp] names, taken
    as given for the same reason.  The three texts are C string literals:
    read as C strings they are themselves. *)
Class cynara_admin_types_h : Type := {
  CYNARA_ADMIN_WILDCARD : string;
  CYNARA_ADMIN_ANY : string;
  CYNARA_ADMIN_DEFAULT_BUCKET : string;
  CYNARA_ADMIN_DELETE : Z;
  CYNARA_ADMIN_DENY : Z;
  CYNARA_ADMIN_BUCKET : Z;
  CYNARA_ADMIN_ALLOW : Z;
  CYNARA_ADMIN_WILDCARD_literal :
    c_str CYNARA_ADMIN_WILDCARD = CYNARA_ADMIN_WILDCARD;
  CYNARA_ADMIN_ANY_literal : c_str CYNARA_ADMIN_ANY = CYNARA_ADMIN_ANY;
  CYNARA_ADMIN_DEFAULT_BUCKET_literal :
    c_str CYNARA_ADMIN_DEFAULT_BUCKET = CYNARA_ADMIN_DEFAULT_BUCKET
}.

(** The values that Cynara's [cynara-admin-types.h] gives them. *)
Definition libcynara_admin_types_h : cynara_admin_types_h := {|
  CYNARA_ADMIN_WILDCARD := "*";
  CYNARA_ADMIN_ANY := "#";
  CYNARA_ADMIN_DEFAULT_BUCKET := "";
  CYNARA_ADMIN_DELETE := -1;
  CYNARA_ADMIN_DENY := 0;
  CYNARA_ADMIN_BUCKET := 65534;
  CYNARA_ADMIN_ALLOW := 65535;
  CYNARA_ADMIN_WILDCARD_literal := eq_refl;
  CYNARA_ADMIN_ANY_literal := eq_refl;
  CYNARA_ADMIN_DEFAULT_BUCKET_literal := eq_refl
|}.

(** ** [CynaraException] and [checkCynaraError] *)

Module CynaraException.

Inductive t : Type :=
| MaxPendingRequests
| OutOfMemory
| InvalidParam
| ServiceNotAvailable
| MethodNotSupported
| OperationNotAllowed
| OperationFailed
| BucketNotFound
| UnknownError.

End CynaraException.

Section CheckCynaraError.

Context `{cynara_error_h}.

Local Open Scope Z_scope.

(** The [switch] of [checkCynaraError]: the first label equal to [result]
    decides. *)
Definition checkCynaraError (result : Z) : outcome CynaraException.t bool :=
  if result =? CYNARA_API_SUCCESS then Ret true
  else if result =? CYNARA_API_ACCESS_ALLOWED then Ret true
  else if result =? CYNARA_API_ACCESS_DENIED then Ret false
  else if result =? CYNARA_API_MAX_PENDING_REQUESTS
    then Throw CynaraException.MaxPendingRequests
  else if result =? CYNARA_API_OUT_OF_MEMORY
    then Throw CynaraException.OutOfMemory
  else if result =? CYNARA_API_INVALID_PARAM
    then Throw CynaraException.InvalidParam
  else if result =? CYNARA_API_SERVICE_NOT_AVAILABLE
    then Throw CynaraException.ServiceNotAvailable
  else if result =? CYNARA_API_METHOD_NOT_SUPPORTED
    then Throw CynaraException.MethodNotSupported
  else if result =? CYNARA_API_OPERATION_NOT_ALLOWED
    then Throw CynaraException.OperationNotAllowed
  else if result =? CYNARA_API_OPERATION_FAILED
    then Throw CynaraException.OperationFailed
  else if result =? CYNARA_API_BUCKET_NOT_FOUND
    then Throw CynaraException.BucketNotFound
  else Throw CynaraException.UnknownError.

(** [checkCynaraError(...)] used as a statement: the [bool] is dropped. *)
Definition checkCynaraError_ {S} (result : Z) : M S CynaraException.t unit :=
  fun s =>
    match checkCynaraError result with
    | Ret _ => (Ret tt, s)
    | Throw e => (Throw e, s)
    end.

End CheckCynaraError.

(** ** [std::stoul] *)

Inductive stoul_result : Type :=
| Converted (value : N)
| invalid_argument
| out_of_range.

Definition isspace (c : ascii) : bool :=
  let n := N_of_ascii c in
  (N.eqb n 32 || (N.leb 9 n && N.leb n 13))%bool.

Fixpoint skip_space (s : string) : string :=
  match s with
  | String c rest => if isspace c then skip_space rest else s
  | EmptyString => s
  end.

Definition digit (c : ascii) : option N :=
  let n := N_of_ascii c in
  if (N.leb 48 n && N.leb n 57)%bool then Some (n - 48)%N else None.

(** The decimal digits at the front of [s], folded into [acc]; [None] when
    [s] does not start with a digit and [seen] is [false]. *)
Fixpoint digits (s : string) (acc : N) (seen : bool) : option N :=
  match s with
  | String c rest =>
      match digit c with
      | Some d => digits rest (10 * acc + d)%N true
      | None => if seen then Some acc else None
      end
  | EmptyString => if seen then Some acc else None
  end.

(** The number a decimal numeral stands for, read digit by digit as
    [digits] does. *)
Fixpoint uint_value (d : Decimal.uint) (acc : N) : N :=
  match d with
  | Decimal.Nil => acc
  | Decimal.D0 l => uint_value l (10 * acc)%N
  | Decimal.D1 l => uint_value l (10 * acc + 1)%N
  | Decimal.D2 l => uint_value l (10 * acc + 2)%N
  | Decimal.D3 l => uint_value l (10 * acc + 3)%N
  | Decimal.D4 l => uint_value l (10 * acc + 4)%N
  | Decimal.D5 l => uint_value l (10 * acc + 5)%N
  | Decimal.D6 l => uint_value l (10 * acc + 6)%N
  | Decimal.D7 l => uint_value l (10 * acc + 7)%N
  | Decimal.D8 l => uint_value l (10 * acc + 8)%N
  | Decimal.D9 l => uint_value l (10 * acc + 9)%N
  end.

Section Stoul.

(** Width of [unsigned long] in bits (32 or 64 on the targets). *)
Variable ulong_bits : N.

(** [std::stoul(str)], base 10, through [strtoul]: leading white space, an
    optional sign, then the longest run of digits; what follows the digits
    is not looked at.  No digit: [std::invalid_argument].  Magnitude above
    [ULONG_MAX]: [std::out_of_range].  A minus sign negates modulo
    [2 ^ ulong_bits]. *)
Definition stoul (str : string) : stoul_result :=
  let s := skip_space str in
  let '(negative, s) :=
    match s with
    | String "-"%char rest => (true, rest)
    | String "+"%char rest => (false, rest)
    | _ => (false, s)
    end in
  match digits s 0 false with
  | None => invalid_argument
  | Some v =>
      if (2 ^ ulong_bits <=? v)%N then out_of_range
      else Converted (if negative
                      then ((2 ^ ulong_bits - v) mod 2 ^ ulong_bits)%N
                      else v)
  end.

End Stoul.

(** A token that is a number and nothing else: one decimal digit or
    more. *)
Fixpoint all_digits (s : string) : bool :=
  match s with
  | EmptyString => true
  | String c rest =>
      match digit c with
      | Some _ => all_digits rest
      | None => false
      end
  end.

Definition numeric (s : string) : bool :=
  match s with
  | EmptyString => false
  | String _ _ => all_digits s
  end.

(** A token in which a digit follows the optional white space and sign. *)
Definition starts_with_number (str : string) : bool :=
  let s := skip_space str in
  let s :=
    match s with
    | String "-"%char rest => rest
    | String "+"%char rest => rest
    | _ => s
    end in
  match s with
  | String c _ => match digit c with Some _ => true | None => false end
  | EmptyString => false
  end.

(** The order of [std::string::compare]: strict, and with equality. *)
Definition str_lt (a b : string) : Prop := String.compare a b = Lt.

Definition str_le (a b : string) : Prop := String.compare a b <> Gt.

(** The members of [a] that are not in [b]. *)
Definition removed (a b : list string) : list string :=
  filter (fun p => negb (existsb (String.eqb p) b)) a.

(** ** [std::map] *)

(** The maps [TypeToDescription] and [DescriptionToType] of [CynaraAdmin]
    are used in [cynara.cpp] through [operator[]], [at], [clear] and a
    range-[for]; their types are declared in [cynara.h], which is not
    among the sources.  They are taken to be [std::map]s.  The properties
    proved of them hold of any container with one entry per key: none
    depends on the order in which a range-[for] visits the entries. *)

Module StdMap.

Section Map.

Variables (K V : Type).

(** The order of the keys, as [std::less] gives it. *)
Variable compare : K -> K -> comparison.

(** A map is the list of its entries in ascending order of their keys. *)
Definition t : Type := list (K * V).

Definition empty : t := [].

(** [m[k] = v]: the entry of [k] is created in its place or
    overwritten. *)
Fixpoint set (k : K) (v : V) (m : t) : t :=
  match m with
  | [] => [(k, v)]
  | (k', v') :: rest =>
      match compare k k' with
      | Lt => (k, v) :: m
      | Eq => (k, v) :: rest
      | Gt => (k', v') :: set k v rest
      end
  end.

(** [m.at(k)]; [None] stands for [std::out_of_range]. *)
Fixpoint at_ (k : K) (m : t) : option V :=
  match m with
  | [] => None
  | (k', v') :: rest =>
      match compare k k' with
      | Eq => Some v'
      | _ => at_ k rest
      end
  end.

End Map.

End StdMap.

(** ** [CynaraAdminPolicy] and [CynaraAdmin] *)

Module Bucket.

Inductive t : Type :=
| PRIVACY_MANAGER
| MAIN
| USER_TYPE_ADMIN
| USER_TYPE_NORMAL
| USER_TYPE_GUEST
| USER_TYPE_SYSTEM
| ADMIN
| MANIFESTS.

End Bucket.

Module Operation.

Inductive t : Type :=
| Deny
| Allow
| Delete
| Bucket.

End Operation.

(** [security_manager_user_type]; [SM_USER_TYPE_other] is a value of the
    underlying integer type that none of the enumerators names. *)
Inductive security_manager_user_type : Type :=
| SM_USER_TYPE_NONE
| SM_USER_TYPE_ANY
| SM_USER_TYPE_SYSTEM
| SM_USER_TYPE_ADMIN
| SM_USER_TYPE_GUEST
| SM_USER_TYPE_NORMAL
| SM_USER_TYPE_END
| SM_USER_TYPE_other (value : Z).

Module CynaraAdmin.

(** [struct cynara_admin_policy]; [pol_result_extra] is [None] for
    [nullptr]. *)
Record cynara_admin_policy : Type := mkPolicy {
  pol_bucket : string;
  pol_client : string;
  pol_user : string;
  pol_privilege : string;
  pol_result : Z;
  pol_result_extra : option string
}.

(** The calls made on the Cynara administrative handle, with their
    arguments. *)
Inductive AdminCall : Type :=
| cynara_admin_set_policies (policies : list cynara_admin_policy)
| cynara_admin_list_policies (bucket client user privilege : string)
| cynara_admin_erase (bucket : string) (recursive : bool)
    (client user privilege : string).

(** What a call hands back: its return code and, for a listing, the
    policies listed. *)
Record AdminReply : Type := mkReply {
  reply_code : Z;
  reply_policies : list cynara_admin_policy
}.

Section Methods.

Context `{cynara_error_h} `{cynara_admin_types_h}.

(** The Cynara service seen from this process: its reply to a call,
    given the calls made before.  The state of a [CynaraAdmin] is the
    list of calls it has made, oldest first; the object that
    [CynaraAdmin::getInstance()] returns is this one, already
    constructed. *)
Variable cynara_admin : list AdminCall -> AdminCall -> AdminReply.

Variable ulong_bits : N.

Definition history : Type := list AdminCall.

Definition call (c : AdminCall)
  : M history CynaraException.t AdminReply :=
  fun h => (Ret (cynara_admin h c), h ++ [c]).

(** [CynaraAdmin::Buckets.at]. *)
Definition Buckets_at (b : Bucket.t) : string :=
  match b with
  | Bucket.PRIVACY_MANAGER => CYNARA_ADMIN_DEFAULT_BUCKET
  | Bucket.MAIN => "MAIN"
  | Bucket.USER_TYPE_ADMIN => "USER_TYPE_ADMIN"
  | Bucket.USER_TYPE_NORMAL => "USER_TYPE_NORMAL"
  | Bucket.USER_TYPE_GUEST => "USER_TYPE_GUEST"
  | Bucket.USER_TYPE_SYSTEM => "USER_TYPE_SYSTEM"
  | Bucket.ADMIN => "ADMIN"
  | Bucket.MANIFESTS => "MANIFESTS"
  end.

(** Modelled from the spec: the enumeration
    [CynaraAdminPolicy::Operation] of [cynara.h], which [cynara.cpp]
    casts to [int] but does not define; each enumerator is the Cynara
    code of the rule result it names (Deny, Allow, Delete,
    Bucket-redirect). *)
Definition Operation_to_int (o : Operation.t) : Z :=
  match o with
  | Operation.Deny => CYNARA_ADMIN_DENY
  | Operation.Allow => CYNARA_ADMIN_ALLOW
  | Operation.Delete => CYNARA_ADMIN_DELETE
  | Operation.Bucket => CYNARA_ADMIN_BUCKET
  end.

(** Constructor taking an [int operation]. *)
Definition CynaraAdminPolicy (client user privilege : string)
    (operation : Z) (bucket : string) : cynara_admin_policy :=
  mkPolicy (c_str bucket) (c_str client) (c_str user) (c_str privilege)
           operation None.

(** Constructor taking the bucket to go to. *)
Definition CynaraAdminPolicy_goToBucket (client user privilege : string)
    (goToBucket bucket : string) : cynara_admin_policy :=
  mkPolicy (c_str bucket) (c_str client) (c_str user) (c_str privilege)
           CYNARA_ADMIN_BUCKET (Some (c_str goToBucket)).

Definition SetPolicies (policies : list cynara_admin_policy)
  : M history CynaraException.t unit :=
  match policies with
  | [] => ret tt
  | _ :: _ =>
      (r <- call (cynara_admin_set_policies policies) ;;
       checkCynaraError_ (reply_code r))%eff
  end.

(** The [while] loop of [UpdateAppPolicy]: it ends when either iterator
    reaches the end, and hands over the policies pushed so far and what
    is left of both sequences. *)
Fixpoint sort_merge_join (label user : string)
    (oldPrivileges : list string)
  : list string -> list cynara_admin_policy ->
    list cynara_admin_policy * list string * list string :=
  fix against (newPrivileges : list string)
      (policies : list cynara_admin_policy) :=
    match oldPrivileges, newPrivileges with
    | oldIter :: oldRest, newIter :: newRest =>
        match String.compare oldIter newIter with
        | Eq => sort_merge_join label user oldRest newRest policies
        | Lt =>
            sort_merge_join label user oldRest newPrivileges
              (policies ++
               [CynaraAdminPolicy label user oldIter
                  (Operation_to_int Operation.Delete)
                  (Buckets_at Bucket.MANIFESTS)])
        | Gt =>
            against newRest
              (policies ++
               [CynaraAdminPolicy label user newIter
                  (Operation_to_int Operation.Allow)
                  (Buckets_at Bucket.MANIFESTS)])
        end
    | _, _ => (policies, oldPrivileges, newPrivileges)
    end.

(** The policies [UpdateAppPolicy] has built when it reaches
    [SetPolicies]: the join, then the two [for] loops over what is
    left. *)
Definition UpdateAppPolicy_policies (label user : string)
    (oldPrivileges newPrivileges : list string)
  : list cynara_admin_policy :=
  let '(policies, oldRest, newRest) :=
    sort_merge_join label user oldPrivileges newPrivileges [] in
  let policies :=
    fold_left
      (fun policies oldIter =>
         policies ++
         [CynaraAdminPolicy label user oldIter
            (Operation_to_int Operation.Delete)
            (Buckets_at Bucket.MANIFESTS)])
      oldRest policies in
  fold_left
    (fun policies newIter =>
       policies ++
       [CynaraAdminPolicy label user newIter
          (Operation_to_int Operation.Allow)
          (Buckets_at Bucket.MANIFESTS)])
    newRest policies.

(** The rules [UpdateAppPolicy] pushes for a privilege it removes and
    for one it adds. *)
Definition Delete_rule (label user privilege : string)
  : cynara_admin_policy :=
  CynaraAdminPolicy label user privilege
    (Operation_to_int Operation.Delete) (Buckets_at Bucket.MANIFESTS).

Definition Allow_rule (label user privilege : string)
  : cynara_admin_policy :=
  CynaraAdminPolicy label user privilege
    (Operation_to_int Operation.Allow) (Buckets_at Bucket.MANIFESTS).

Definition UpdateAppPolicy (label user : string)
    (oldPrivileges newPrivileges : list string)
  : M history CynaraException.t unit :=
  SetPolicies
    (UpdateAppPolicy_policies label user oldPrivileges newPrivileges).

Definition UserInit (uid : N) (userType : security_manager_user_type)
  : M history CynaraException.t unit :=
  let bucket :=
    match userType with
    | SM_USER_TYPE_SYSTEM => Ret Bucket.USER_TYPE_SYSTEM
    | SM_USER_TYPE_ADMIN => Ret Bucket.USER_TYPE_ADMIN
    | SM_USER_TYPE_GUEST => Ret Bucket.USER_TYPE_GUEST
    | SM_USER_TYPE_NORMAL => Ret Bucket.USER_TYPE_NORMAL
    | SM_USER_TYPE_ANY
    | SM_USER_TYPE_NONE
    | SM_USER_TYPE_END
    | SM_USER_TYPE_other _ => Throw CynaraException.InvalidParam
    end in
  match bucket with
  | Throw e => throw e
  | Ret bucket =>
      let policies :=
        [] ++
        [CynaraAdminPolicy_goToBucket CYNARA_ADMIN_WILDCARD
           (to_string (to_unsigned_int uid))
           CYNARA_ADMIN_WILDCARD
           (Buckets_at bucket)
           (Buckets_at Bucket.MAIN)] in
      SetPolicies policies
  end.

(** The rule of bucket MAIN that sends the user [uid], for any client
    and any privilege, to the bucket [target]. *)
Definition UserInit_rule (uid : N) (target : string)
  : cynara_admin_policy :=
  mkPolicy "MAIN" CYNARA_ADMIN_WILDCARD (to_string uid)
           CYNARA_ADMIN_WILDCARD CYNARA_ADMIN_BUCKET (Some target).

(** [ListPolicies] appends what Cynara lists to the caller's vector. *)
Definition ListPolicies (bucketName appId user privilege : string)
    (policies : list cynara_admin_policy)
  : M history CynaraException.t (list cynara_admin_policy) :=
  (r <- call (cynara_admin_list_policies (c_str bucketName) (c_str appId)
                (c_str user) (c_str privilege)) ;;
   checkCynaraError_ (reply_code r) ;;;
   ret (policies ++ reply_policies r))%eff.

Definition EmptyBucket (bucketName : string) (recursive : bool)
    (client user privilege : string)
  : M history CynaraException.t unit :=
  (r <- call (cynara_admin_erase (c_str bucketName) recursive
                (c_str client) (c_str user) (c_str privilege)) ;;
   checkCynaraError_ (reply_code r))%eff.

Definition UserRemove (uid : N) : M history CynaraException.t unit :=
  let user := to_string (to_unsigned_int uid) in
  EmptyBucket (Buckets_at Bucket.PRIVACY_MANAGER) true
    CYNARA_ADMIN_ANY user CYNARA_ADMIN_ANY.

(** What can leave [ListUsers]: a [CynaraException] from the listing, or
    the [std::out_of_range] of [std::stoul], which the loop does not
    catch. *)
Inductive ListUsers_exn : Type :=
| Cynara_exn (e : CynaraException.t)
| std_out_of_range.

(** The [for] loop of [ListUsers] over the listed policies;
    [listOfUsers] is the caller's vector. *)
Fixpoint ListUsers_loop (tmpListOfUsers : list cynara_admin_policy)
    (listOfUsers : list N) : outcome ListUsers_exn unit * list N :=
  match tmpListOfUsers with
  | [] => (Ret tt, listOfUsers)
  | tmpUser :: rest =>
      let user := c_str (pol_user tmpUser) in
      match String.compare user (c_str CYNARA_ADMIN_WILDCARD) with
      | Eq => ListUsers_loop rest listOfUsers
      | _ =>
          match stoul ulong_bits user with
          | Converted value =>
              ListUsers_loop rest (listOfUsers ++ [to_unsigned_int value])
          | invalid_argument => ListUsers_loop rest listOfUsers
          | out_of_range => (Throw std_out_of_range, listOfUsers)
          end
      end
  end.

(** What one listed policy adds to the caller's vector when the loop
    passes it without throwing. *)
Definition listed_uid (tmpUser : cynara_admin_policy) : list N :=
  let user := c_str (pol_user tmpUser) in
  if String.eqb user CYNARA_ADMIN_WILDCARD then []
  else match stoul ulong_bits user with
       | Converted value => [to_unsigned_int value]
       | _ => []
       end.

(** The listing [ListUsers] asks for. *)
Definition ListUsers_call : AdminCall :=
  cynara_admin_list_policies "MAIN" CYNARA_ADMIN_WILDCARD
    CYNARA_ADMIN_ANY CYNARA_ADMIN_WILDCARD.

(** [ListUsers] runs over the caller's vector paired with the calls
    made. *)
Definition ListUsers : M (list N * history) ListUsers_exn unit :=
  fun st =>
    let '(listOfUsers, h) := st in
    match ListPolicies (Buckets_at Bucket.MAIN) CYNARA_ADMIN_WILDCARD
            CYNARA_ADMIN_ANY CYNARA_ADMIN_WILDCARD [] h with
    | (Throw e, h') => (Throw (Cynara_exn e), (listOfUsers, h'))
    | (Ret tmpListOfUsers, h') =>
        let '(r, listOfUsers') :=
          ListUsers_loop tmpListOfUsers listOfUsers in
        (r, (listOfUsers', h'))
    end.

(** The policies that the [cynara_admin_set_policies] calls of a history
    handed to Cynara, oldest first. *)
Definition policies_set (h : history) : list cynara_admin_policy :=
  flat_map (fun c =>
              match c with
              | cynara_admin_set_policies policies => policies
              | _ => []
              end) h.

(** The user types to which the [switch] of [UserInit] gives a bucket. *)
Definition UserInit_bucket (userType : security_manager_user_type)
  : option Bucket.t :=
  match userType with
  | SM_USER_TYPE_SYSTEM => Some Bucket.USER_TYPE_SYSTEM
  | SM_USER_TYPE_ADMIN => Some Bucket.USER_TYPE_ADMIN
  | SM_USER_TYPE_GUEST => Some Bucket.USER_TYPE_GUEST
  | SM_USER_TYPE_NORMAL => Some Bucket.USER_TYPE_NORMAL
  | _ => None
  end.

(** [UserInit] called for each user of a list in turn, whatever each call
    ends in. *)
Definition UserInit_each
    (users : list (N * security_manager_user_type)) (h : history)
  : history :=
  fold_left (fun h u => snd (UserInit (fst u) (snd u) h)) users h.

(** The users of a list that [UserInit] has a bucket for, as it writes
    them. *)
Definition initialised (users : list (N * security_manager_user_type))
  : list N :=
  flat_map (fun u =>
              match UserInit_bucket (snd u) with
              | Some _ => [to_unsigned_int (fst u)]
              | None => []
              end) users.

End Methods.

(** *** Policy descriptions *)

(** [struct cynara_admin_policy_descr]. *)
Record cynara_admin_policy_descr : Type := mkDescr {
  descr_result : Z;
  descr_name : string
}.

(** The description cache of [CynaraAdmin]: the flag
    [m_policyDescriptionsInitialized], the two maps, and how many times
    [cynara_admin_list_policies_descriptions] has been called. *)
Record DescriptionCache : Type := mkCache {
  m_policyDescriptionsInitialized : bool;
  TypeToDescription : StdMap.t Z string;
  DescriptionToType : StdMap.t string Z;
  descriptions_listed : nat
}.

Section Descriptions.

Context `{cynara_error_h}.

(** Cynara's reply to [cynara_admin_list_policies_descriptions], given the
    number of such calls made before: return code and descriptions. *)
Variable cynara_admin_list_policies_descriptions :
  nat -> Z * list cynara_admin_policy_descr.

(** One turn of the loop that extracts the strings. *)
Definition store_description (c : DescriptionCache)
    (d : cynara_admin_policy_descr) : DescriptionCache :=
  let descriptionName := c_str (descr_name d) in
  mkCache (m_policyDescriptionsInitialized c)
          (StdMap.set Z.compare (descr_result d) descriptionName
             (TypeToDescription c))
          (StdMap.set String.compare descriptionName (descr_result d)
             (DescriptionToType c))
          (descriptions_listed c).

Definition FetchCynaraPolicyDescriptions (forceRefresh : bool)
  : M DescriptionCache CynaraException.t unit :=
  fun c =>
    if (negb forceRefresh && m_policyDescriptionsInitialized c)%bool
    then (Ret tt, c)
    else
      let '(code, descriptions) :=
        cynara_admin_list_policies_descriptions (descriptions_listed c) in
      let c := mkCache (m_policyDescriptionsInitialized c)
                       (TypeToDescription c) (DescriptionToType c)
                       (S (descriptions_listed c)) in
      match checkCynaraError code with
      | Throw e => (Throw e, c)
      | Ret _ =>
          match descriptions with
          | [] => (Ret tt, c)
          | _ :: _ =>
              let c := mkCache false (StdMap.empty Z string)
                               (StdMap.empty string Z)
                               (descriptions_listed c) in
              let c := fold_left store_description descriptions c in
              (Ret tt,
               mkCache true (TypeToDescription c) (DescriptionToType c)
                       (descriptions_listed c))
          end
      end.

(** A [CynaraException] of the fetch travels on as it is. *)
Definition fetch (forceRefresh : bool)
  : M DescriptionCache ListUsers_exn unit :=
  fun c =>
    match FetchCynaraPolicyDescriptions forceRefresh c with
    | (Ret v, c') => (Ret v, c')
    | (Throw e, c') => (Throw (Cynara_exn e), c')
    end.

Definition ListPoliciesDescriptions (policiesDescriptions : list string)
  : M DescriptionCache CynaraException.t (list string) :=
  (FetchCynaraPolicyDescriptions false ;;;
   fun c =>
     (Ret (fold_left (fun v it => v ++ [snd it]) (TypeToDescription c)
             policiesDescriptions),
      c))%eff.

Definition convertToPolicyDescription (policyType : Z) (forceRefresh : bool)
  : M DescriptionCache ListUsers_exn string :=
  (fetch forceRefresh ;;;
   fun c =>
     match StdMap.at_ Z.compare policyType (TypeToDescription c) with
     | Some description => (Ret description, c)
     | None => (Throw std_out_of_range, c)
     end)%eff.

Definition convertToPolicyType (policy : string) (forceRefresh : bool)
  : M DescriptionCache ListUsers_exn Z :=
  (fetch forceRefresh ;;;
   fun c =>
     match StdMap.at_ String.compare policy (DescriptionToType c) with
     | Some policyType => (Ret policyType, c)
     | None => (Throw std_out_of_range, c)
     end)%eff.

(** The entry that a listed description leaves in [TypeToDescription]. *)
Definition description_entry (d : cynara_admin_policy_descr) : Z * string :=
  (descr_result d, c_str (descr_name d)).

(** The cache after a listing that succeeded and was not empty, made when
    [listed] calls had been made before: each listed description assigned
    in turn to both maps, which were empty. *)
Definition refreshed (descriptions : list cynara_admin_policy_descr)
    (listed : nat) : DescriptionCache :=
  mkCache true
    (fold_left (fun m e => StdMap.set Z.compare (fst e) (snd e) m)
       (map description_entry descriptions) [])
    (fold_left (fun m e => StdMap.set String.compare (fst e) (snd e) m)
       (map (fun d => (c_str (descr_name d), descr_result d)) descriptions)
       [])
    (S listed).

End Descriptions.

(** A Cynara whose every reply is code 0 and, for a listing, the policies
    set so far. *)
Definition lists_what_was_set
  : list AdminCall -> AdminCall -> AdminReply :=
  fun h _ => mkReply 0 (policies_set h).

(** A Cynara that lists three policy descriptions, with code 0, and one
    whose listing of the descriptions fails with code -5. *)
Definition lists_three_descriptions
  : nat -> Z * list cynara_admin_policy_descr :=
  fun _ => (0%Z, [mkDescr 65535 "Allow"; mkDescr 0 "Deny";
                  mkDescr 10 "Ask user"]).

Definition lists_no_description
  : nat -> Z * list cynara_admin_policy_descr :=
  fun _ => ((-5)%Z, []).

(** A Cynara whose every reply is code 0 and, for a listing, one
    wildcard-client rule of bucket MAIN for each of the user tokens
    [tokens], in their order. *)
Definition lists_users (tokens : list string)
  : list AdminCall -> AdminCall -> AdminReply :=
  fun _ _ =>
    mkReply 0 (map (fun token =>
                      mkPolicy "MAIN" "*" token "*" 65534
                        (Some "USER_TYPE_NORMAL"%string))
                   tokens).

(** A Cynara whose every reply is code 0 and, for a listing, one
    wildcard-client rule of bucket MAIN for the user token [token]. *)
Definition lists_one_user (token : string)
  : list AdminCall -> AdminCall -> AdminReply :=
  fun _ _ =>
    mkReply 0 [mkPolicy "MAIN" "*" token "*" 65534
                 (Some "USER_TYPE_NORMAL"%string)].

End CynaraAdmin.

(** ** [Cynara]: the check client *)

Module Cynara.

(** [cynara_async_call_cause]. *)
Inductive cynara_async_call_cause : Type :=
| CYNARA_CALL_CAUSE_ANSWER
| CYNARA_CALL_CAUSE_CANCEL
| CYNARA_CALL_CAUSE_FINISH
| CYNARA_CALL_CAUSE_SERVICE_NOT_AVAILABLE.

Definition cynara_check_id : Type := Z.

(** The shared state of a [std::promise<bool>] and its future: nothing
    stored yet, a value, or an exception. *)
Inductive shared_state : Type :=
| Unresolved
| Value (b : bool)
| Exception (e : CynaraException.t).

(** [std::future_error]; storing into a state that already holds a result
    raises it with [promise_already_satisfied]. *)
Inductive future_error : Type :=
| promise_already_satisfied.

(** Conversion of an [int] argument to the [bool] that
    [std::promise<bool>::set_value] takes: zero is [false], anything else
    is [true]. *)
Definition int_to_bool (v : Z) : bool := negb (v =? 0)%Z.

Definition set_value (v : bool) (p : shared_state)
  : outcome future_error unit * shared_state :=
  match p with
  | Unresolved => (Ret tt, Value v)
  | _ => (Throw promise_already_satisfied, p)
  end.

Definition set_exception (e : CynaraException.t) (p : shared_state)
  : outcome future_error unit * shared_state :=
  match p with
  | Unresolved => (Ret tt, Exception e)
  | _ => (Throw promise_already_satisfied, p)
  end.

(** The calls [Cynara::check] makes on the Cynara handle and on the
    eventfd that wakes the worker thread. *)
Inductive ClientCall : Type :=
| cynara_async_check_cache (client session user privilege : string)
| cynara_async_create_request (client session user privilege : string)
| eventfd_write.

(** Reply of the asynchronous library to a call: return code and, for a
    request, the identifier given to it. *)
Record ClientReply : Type := mkClientReply {
  client_code : Z;
  client_check_id : cynara_check_id
}.

Section Methods.

Context `{cynara_error_h}.

(** [responseCallback] acting on the promise that [ptr] points to. *)
Definition responseCallback (checkId : cynara_check_id)
    (cause : cynara_async_call_cause) (response : Z)
  : M shared_state future_error unit :=
  match cause with
  | CYNARA_CALL_CAUSE_ANSWER => set_value (int_to_bool response)
  | CYNARA_CALL_CAUSE_CANCEL =>
      set_value (int_to_bool CYNARA_API_ACCESS_DENIED)
  | CYNARA_CALL_CAUSE_FINISH =>
      set_value (int_to_bool CYNARA_API_ACCESS_DENIED)
  | CYNARA_CALL_CAUSE_SERVICE_NOT_AVAILABLE =>
      set_exception CynaraException.ServiceNotAvailable
  end.

(** The asynchronous library seen from the calling thread: its reply to
    a call given the calls made before. *)
Variable cynara_async : list ClientCall -> ClientCall -> ClientReply.

(** What the worker thread's [cynara_async_process] delivers to the
    response callback of a request, if it ever does. *)
Variable completion :
  cynara_check_id -> option (cynara_async_call_cause * Z).

Definition client_call (c : ClientCall) (h : list ClientCall)
  : ClientReply * list ClientCall :=
  (cynara_async h c, h ++ [c]).

(** [threadNotifyPut]: a failed write is logged and nothing else. *)
Definition threadNotifyPut (h : list ClientCall) : list ClientCall :=
  h ++ [eventfd_write].

(** [future.get()]: [None] while nothing has been stored. *)
Definition future_get (p : shared_state)
  : option (outcome CynaraException.t bool) :=
  match p with
  | Unresolved => None
  | Value b => Some (Ret b)
  | Exception e => Some (Throw e)
  end.

(** The part of [check] after a cache miss: the request is created, the
    worker is woken, and the caller waits on its future. *)
Definition check_async (label privilege user session : string)
  : list ClientCall ->
    option (outcome CynaraException.t bool) * list ClientCall :=
  fun h =>
    let '(reply, h1) :=
      client_call (cynara_async_create_request (c_str label)
                     (c_str session) (c_str user) (c_str privilege)) h in
    match checkCynaraError (client_code reply) with
    | Throw e => (Some (Throw e), h1)
    | Ret _ =>
        let h2 := threadNotifyPut h1 in
        let check_id := client_check_id reply in
        let promise :=
          match completion check_id with
          | Some (cause, response) =>
              snd (responseCallback check_id cause response Unresolved)
          | None => Unresolved
          end in
        (future_get promise, h2)
    end.

(** [Cynara::check]; [None] when the caller waits for ever. *)
Definition check (label privilege user session : string)
  : list ClientCall ->
    option (outcome CynaraException.t bool) * list ClientCall :=
  fun h =>
    let '(reply, h1) :=
      client_call (cynara_async_check_cache (c_str label) (c_str session)
                     (c_str user) (c_str privilege)) h in
    let ret := client_code reply in
    if negb (ret =? CYNARA_API_CACHE_MISS)%Z
    then (Some (checkCynaraError ret), h1)
    else check_async label privilege user session h1.

(** *** The worker thread *)

(** What the worker finds when [poll] returns: the value [poll] returned,
    the [revents] of the eventfd and of the Cynara descriptor, what
    [terminate.load()] gives if it is asked, and what
    [cynara_async_process] returns if it is called. *)
Record wakeup : Type := mkWakeup {
  poll_ret : Z;
  revents0 : Z;
  revents1 : Z;
  terminate_load : bool;
  process_ret : Z
}.

(** The calls the worker makes on the eventfd and on the Cynara handle. *)
Inductive WorkerCall : Type :=
| eventfd_read
| cynara_async_process.

(** [threadNotifyGet]: a failed read is logged and nothing else. *)
Definition threadNotifyGet (h : list WorkerCall) : list WorkerCall :=
  h ++ [eventfd_read].

(** [Cynara::run] over the returns of [poll] that the thread gets: whether
    it has returned, and the calls it made.  With no return of [poll] left
    the thread is blocked in [poll]. *)
Fixpoint run (wakeups : list wakeup) (h : list WorkerCall)
  : bool * list WorkerCall :=
  match wakeups with
  | [] => (false, h)
  | w :: rest =>
      if (poll_ret w =? -1)%Z then run rest h
      else
        let h :=
          if negb (revents0 w =? 0)%Z then threadNotifyGet h else h in
        if (negb (revents0 w =? 0)%Z && terminate_load w)%bool
        then (true, h)
        else
          if negb (revents1 w =? 0)%Z
          then
            match checkCynaraError (process_ret w) with
            | Ret _ => run rest (h ++ [cynara_async_process])
            | Throw _ => run rest (h ++ [cynara_async_process])
            end
          else run rest h
  end.

(** A return of [poll] at which the thread ends: [poll] did not fail, the
    eventfd is ready and the terminate flag is set. *)
Definition stops (w : wakeup) : bool :=
  (negb (poll_ret w =? -1)%Z && negb (revents0 w =? 0)%Z
   && terminate_load w)%bool.

(** The calls the worker makes at a return of [poll] that does not end
    it. *)
Definition wakeup_calls (w : wakeup) : list WorkerCall :=
  if (poll_ret w =? -1)%Z then []
  else (if negb (revents0 w =? 0)%Z then [eventfd_read] else [])
       ++ (if negb (revents1 w =? 0)%Z then [cynara_async_process] else []).

End Methods.

End Cynara.

(** * Properties *)

Unset Implicit Arguments.

(** ** [PrivilegeDb] over any store *)

Module PrivilegeDbFacts.

Import DB PrivilegeDb.

Section AnyStore.

Variable database : Type.
Variable exec :
  QueryType -> bindings -> database ->
  outcome SqlException (list row) * database.

Lemma try_catch_throw {S T} (func : M S exn T) s e s' :
  func s = (Throw (SqlExn e), s') ->
  try_catch func s = (Throw (rethrown e), s').
Proof.
  intros Hf. unfold try_catch. rewrite Hf. destruct e; reflexivity.
Qed.

Lemma rethrown_not_ConflictError e : rethrown e <> DbExn ConflictError.
Proof. destruct e; discriminate. Qed.

(** The bindings of the insert of [AddApplication] when it is stepped. *)
Lemma AddApplication_insert_throws appId pkgId pkgIdIsNew db found db1 e db2 :
  PkgIdExists exec pkgId db = (Ret found, db1) ->
  exec EAddApplication [(1, c_str appId); (2, c_str pkgId)] db1
  = (Throw e, db2) ->
  AddApplication exec appId pkgId (pkgIdIsNew, db)
  = (Throw (rethrown e), (negb found, db2)).
Proof.
  intros Hexists Hinsert.
  unfold AddApplication, bind, with_ref, assign. simpl.
  rewrite Hexists. simpl.
  apply try_catch_throw.
  unfold step, Step. simpl. rewrite Hinsert. reflexivity.
Qed.

Lemma try_catch_no_conflict {S T} (func : M S exn T) s :
  no_conflict (fst (func s)) -> no_conflict (fst (try_catch func s)).
Proof.
  unfold try_catch, no_conflict.
  destruct (func s) as [[v | [k | e]] s']; simpl; auto.
  destruct e; simpl; intros _ x Hx; inversion Hx; discriminate.
Qed.

Lemma step_no_conflict c db : no_conflict (fst (step exec c db)).
Proof.
  unfold step, no_conflict.
  destruct (Step exec c db) as [[v | e] db']; simpl;
    intros x Hx; inversion Hx; discriminate.
Qed.

Lemma PkgIdExists_no_conflict pkgId db :
  no_conflict (fst (PkgIdExists exec pkgId db)).
Proof.
  unfold PkgIdExists. apply try_catch_no_conflict.
  unfold bind.
  match goal with |- context [step exec ?c db] =>
    pose proof (step_no_conflict c db) as Hs;
    destruct (step exec c db) as [[[found c'] | e] db']
  end.
  - destruct found; intros x Hx; discriminate.
  - intros x Hx. inversion Hx; subst. apply (Hs x). reflexivity.
Qed.

(** No path through [AddApplication] ends in [ConflictError], whatever
    the store does. *)
Lemma AddApplication_no_conflict appId pkgId st :
  no_conflict (fst (AddApplication exec appId pkgId st)).
Proof.
  unfold AddApplication. unfold bind at 1. unfold with_ref at 1.
  pose proof (PkgIdExists_no_conflict pkgId (snd st)) as Hp.
  destruct (PkgIdExists exec pkgId (snd st)) as [[found | e] db1].
  - unfold bind at 1. unfold assign. cbv beta iota.
    apply try_catch_no_conflict.
    unfold bind, with_ref.
    match goal with |- context [step exec ?c ?d] =>
      pose proof (step_no_conflict c d) as Hs;
      destruct (step exec c d) as [[[f c'] | e] db']
    end.
    + intros x Hx; discriminate.
    + intros x Hx. inversion Hx; subst. apply (Hs x). reflexivity.
  - intros x Hx. inversion Hx; subst. apply (Hp x). reflexivity.
Qed.

(** C3, as the code has it: when the store signals the uniqueness
    violation of a duplicate (appId, pkgId) at the insert step,
    [AddApplication] fails with what [try_catch] makes of the store's
    exception -- [InternalError] for a [SyntaxError] or [InternalError]
    of the connection, the store's own exception otherwise -- and never
    with [ConflictError]. *)
Theorem AddApplication_duplicate_fails_as_rethrown
    appId pkgId pkgIdIsNew db found db1 e db2 :
  PkgIdExists exec pkgId db = (Ret found, db1) ->
  exec EAddApplication [(1, c_str appId); (2, c_str pkgId)] db1
  = (Throw e, db2) ->
  fst (AddApplication exec appId pkgId (pkgIdIsNew, db))
  = Throw (rethrown e)
  /\ (e <> OtherError ->
      fst (AddApplication exec appId pkgId (pkgIdIsNew, db))
      = Throw (DbExn InternalError))
  /\ fst (AddApplication exec appId pkgId (pkgIdIsNew, db))
     <> Throw (DbExn ConflictError).
Proof.
  intros Hexists Hinsert.
  rewrite (AddApplication_insert_throws appId pkgId pkgIdIsNew db found db1
             e db2 Hexists Hinsert).
  simpl. repeat split.
  - intros Hne. destruct e; try reflexivity. contradiction.
  - intros Heq. injection Heq. apply rethrown_not_ConflictError.
Qed.

(** C10: [AddApplication] writes [pkgIdIsNew] from the existence check
    before it attempts the insert; when the insert step fails, the call
    ends in an exception and the caller's variable already holds the
    negated result of the existence check, whatever it held before. *)
Theorem AddApplication_flag_written_before_failed_insert
    appId pkgId pkgIdIsNew db found db1 e db2 :
  PkgIdExists exec pkgId db = (Ret found, db1) ->
  exec EAddApplication [(1, c_str appId); (2, c_str pkgId)] db1
  = (Throw e, db2) ->
  (exists failure,
      fst (AddApplication exec appId pkgId (pkgIdIsNew, db))
      = Throw failure)
  /\ fst (snd (AddApplication exec appId pkgId (pkgIdIsNew, db)))
     = negb found.
Proof.
  intros Hexists Hinsert.
  rewrite (AddApplication_insert_throws appId pkgId pkgIdIsNew db found db1
             e db2 Hexists Hinsert).
  simpl. split; [eexists; reflexivity | reflexivity].
Qed.

(** When the insert succeeds, the variable holds the negated result of the
    existence check made before it. *)
Lemma AddApplication_flag_from_check_before_insert
    appId pkgId pkgIdIsNew db found db1 rows db2 :
  PkgIdExists exec pkgId db = (Ret found, db1) ->
  exec EAddApplication [(1, c_str appId); (2, c_str pkgId)] db1
  = (Ret rows, db2) ->
  AddApplication exec appId pkgId (pkgIdIsNew, db)
  = (Ret tt, (negb found, db2)).
Proof.
  intros Hexists Hinsert.
  unfold AddApplication, bind, with_ref, assign. simpl.
  rewrite Hexists. simpl.
  unfold try_catch, step, Step. simpl. rewrite Hinsert.
  destruct rows; reflexivity.
Qed.

(** [RemoveApplication] steps the delete first and assigns the variable
    from the existence check made on the store the delete left. *)
Lemma RemoveApplication_flag_from_check_after_delete
    appId pkgId pkgIdIsNoMore db rows db1 found db2 :
  exec ERemoveApplication [(1, c_str appId); (2, c_str pkgId)] db
  = (Ret rows, db1) ->
  PkgIdExists exec pkgId db1 = (Ret found, db2) ->
  RemoveApplication exec appId pkgId (pkgIdIsNoMore, db)
  = (Ret tt, (negb found, db2)).
Proof.
  intros Hdelete Hexists.
  unfold RemoveApplication, try_catch, bind, with_ref, assign, step, Step.
  simpl. rewrite Hdelete. destruct rows; simpl; rewrite Hexists; reflexivity.
Qed.

(** Once the existence check has returned, the variable holds its negated
    result when the call ends, whatever the insert does. *)
Lemma AddApplication_flag_after_check
    appId pkgId pkgIdIsNew db found db1 :
  PkgIdExists exec pkgId db = (Ret found, db1) ->
  fst (snd (AddApplication exec appId pkgId (pkgIdIsNew, db))) = negb found.
Proof.
  intros Hexists.
  unfold AddApplication, bind, with_ref, assign. simpl.
  rewrite Hexists. simpl.
  unfold try_catch, step, Step. simpl.
  destruct (exec _ _ db1) as [[rows | e] db2]; simpl.
  - destruct rows; reflexivity.
  - destruct e; reflexivity.
Qed.

(** [RemoveAppPrivileges] is one run of its statement with [appId] bound:
    whether the statement yielded a row is not looked at, and an exception
    of the connection goes through [try_catch]. *)
Lemma RemoveAppPrivileges_one_statement appId db :
  RemoveAppPrivileges exec appId db
  = match exec ERemoveAppPrivileges [(1, c_str appId)] db with
    | (Ret _, db') => (Ret tt, db')
    | (Throw e, db') => (Throw (rethrown e), db')
    end.
Proof.
  unfold RemoveAppPrivileges, try_catch, bind, step, Step. simpl.
  destruct (exec _ _ db) as [[rows | e] db']; simpl.
  - destruct rows; reflexivity.
  - destruct e; reflexivity.
Qed.

(** When the existence check itself throws, the variable is not
    written. *)
Lemma AddApplication_flag_kept_when_check_throws
    appId pkgId pkgIdIsNew db failure db1 :
  PkgIdExists exec pkgId db = (Throw failure, db1) ->
  AddApplication exec appId pkgId (pkgIdIsNew, db)
  = (Throw failure, (pkgIdIsNew, db1)).
Proof.
  intros Hexists. unfold AddApplication, bind, with_ref. simpl.
  rewrite Hexists. reflexivity.
Qed.

End AnyStore.

(** *** Over the store of the specification *)

Section SpecStore.

Variable violation : SqlException.

Let exec := exec_spec violation.

Lemma has_pkg_iff pkgId st :
  has_pkg pkgId st = true <-> package_has_application st pkgId.
Proof.
  unfold has_pkg, package_has_application. rewrite existsb_exists. split.
  - intros [[a p] [Hin Heq]]. simpl in Heq.
    apply String.eqb_eq in Heq. subst p. exists a. exact Hin.
  - intros [a Hin]. exists (a, pkgId). split; [exact Hin |].
    simpl. apply String.eqb_refl.
Qed.

Lemma same_row_iff x y : same_row x y = true <-> x = y.
Proof.
  destruct x as [a p], y as [a' p']. unfold same_row. simpl.
  rewrite andb_true_iff, !String.eqb_eq. split.
  - intros [-> ->]. reflexivity.
  - intros Heq. injection Heq. auto.
Qed.

Lemma deliver_found {A} (c : DataCommand) (f : A -> row) (g : A -> bool) l :
  fst (deliver c (map f (filter g l))) = existsb g l.
Proof.
  induction l as [| x l IH]; simpl; [reflexivity |].
  destruct (g x); simpl; [reflexivity | exact IH].
Qed.

Lemma PkgIdExists_spec pkgId st :
  PkgIdExists exec pkgId st = (Ret (has_pkg (c_str pkgId) st), st).
Proof.
  unfold PkgIdExists, try_catch, bind, step, Step, has_pkg. simpl.
  match goal with
  | |- context [deliver ?c (map ?f (filter ?g ?l))] =>
      destruct (deliver c (map f (filter g l))) as [found c'] eqn:Hd;
      assert (Hfound : found = existsb g l)
        by (change found with (fst (found, c')); rewrite <- Hd;
            apply deliver_found)
  end.
  subst found. destruct (existsb _ (apps st)); reflexivity.
Qed.

Lemma AddApplication_spec appId pkgId pkgIdIsNew st :
  AddApplication exec appId pkgId (pkgIdIsNew, st)
  = if existsb (same_row (c_str appId, c_str pkgId)) (apps st)
    then (Throw (rethrown violation), (negb (has_pkg (c_str pkgId) st), st))
    else (Ret tt, (negb (has_pkg (c_str pkgId) st),
                   inserted (c_str appId) (c_str pkgId) st)).
Proof.
  unfold AddApplication. unfold bind at 1. unfold with_ref at 1. simpl.
  rewrite PkgIdExists_spec.
  unfold bind, assign, with_ref, try_catch, step, Step. simpl.
  destruct (existsb (same_row (c_str appId, c_str pkgId)) (apps st)); simpl.
  - destruct violation; reflexivity.
  - reflexivity.
Qed.

Lemma RemoveApplication_spec appId pkgId pkgIdIsNoMore st :
  RemoveApplication exec appId pkgId (pkgIdIsNoMore, st)
  = (Ret tt,
     (negb (has_pkg (c_str pkgId) (deleted (c_str appId) (c_str pkgId) st)),
      deleted (c_str appId) (c_str pkgId) st)).
Proof.
  unfold RemoveApplication, try_catch.
  unfold bind at 1. unfold with_ref at 1. unfold step, Step. simpl.
  unfold bind, with_ref. simpl.
  fold (deleted (c_str appId) (c_str pkgId) st).
  rewrite PkgIdExists_spec. reflexivity.
Qed.

Lemma RemoveAppPrivileges_spec appId st :
  RemoveAppPrivileges exec appId st
  = (Ret tt, without_grants (c_str appId) st).
Proof. reflexivity. Qed.

Lemma filter_twice {A} (f : A -> bool) l :
  filter f (filter f l) = filter f l.
Proof.
  induction l as [| x l IH]; simpl; [reflexivity |].
  destruct (f x) eqn:Hfx; simpl; [rewrite Hfx, IH |]; auto.
Qed.

Lemma filter_all {A} (f : A -> bool) l :
  (forall x, In x l -> f x = true) -> filter f l = l.
Proof.
  induction l as [| x l IH]; simpl; intros Hall; [reflexivity |].
  rewrite (Hall x (or_introl eq_refl)), IH; auto.
Qed.

(** On the store of the specification, [AddApplication] inserts the row
    when it is no duplicate and [RemoveApplication] deletes it; the flags
    are decided on the store before the insert and after the delete. *)
Lemma package_flags_on_the_store :
  (forall appId pkgId pkgIdIsNew st,
      let '(r, (isNew, st')) :=
        AddApplication exec appId pkgId (pkgIdIsNew, st) in
      (isNew = true <-> ~ package_has_application st (c_str pkgId))
      /\ (~ In (c_str appId, c_str pkgId) (apps st) ->
          r = Ret tt /\ st' = inserted (c_str appId) (c_str pkgId) st))
  /\ (forall appId pkgId pkgIdIsNoMore st,
        let '(r, (isEmpty, st')) :=
          RemoveApplication exec appId pkgId (pkgIdIsNoMore, st) in
        r = Ret tt
        /\ st' = deleted (c_str appId) (c_str pkgId) st
        /\ (isEmpty = true <-> ~ package_has_application st' (c_str pkgId))).
Proof.
  split.
  - intros appId pkgId pkgIdIsNew st. rewrite AddApplication_spec.
    destruct (existsb (same_row (c_str appId, c_str pkgId)) (apps st))
      eqn:Hdup.
    + split.
      * rewrite <- has_pkg_iff, negb_true_iff, not_true_iff_false.
        reflexivity.
      * intros Hnot. exfalso. apply Hnot.
        apply existsb_exists in Hdup. destruct Hdup as [x [Hin Hx]].
        apply same_row_iff in Hx. subst x. exact Hin.
    + split.
      * rewrite <- has_pkg_iff, negb_true_iff, not_true_iff_false.
        reflexivity.
      * intros _. split; reflexivity.
  - intros appId pkgId pkgIdIsNoMore st. rewrite RemoveApplication_spec.
    split; [reflexivity | split; [reflexivity |]].
    rewrite <- has_pkg_iff, negb_true_iff, not_true_iff_false.
    reflexivity.
Qed.

(** The existence statement of the specification's store decides whether
    some application is associated with the package, and leaves the store
    as it is. *)
Lemma PkgIdExists_decides_association pkgId st :
  exists found,
    PkgIdExists exec pkgId st = (Ret found, st)
    /\ (found = true <-> package_has_application st (c_str pkgId)).
Proof.
  exists (has_pkg (c_str pkgId) st).
  split; [apply PkgIdExists_spec | apply has_pkg_iff].
Qed.

End SpecStore.

(** C4: over any store whose existence statement decides, without changing
    the store, whether some application is associated with a package:
    [AddApplication] hands back [pkgIdIsNew = true] exactly when no
    application was associated with the package in the store it was
    called on, that is before the insert; [RemoveApplication], when its
    delete statement has run, hands back [pkgIdIsNoMore = true] exactly
    when no application is associated with the package in the store the
    delete left.  So, on the store of the specification and from the
    empty store, adding app1 then app2 to pkgA gives [true] then [false],
    and removing app1 then app2 gives [false] then [true].  The
    identifiers reach the store as C strings. *)
Theorem package_flags_follow_the_store :
  (forall (database : Type)
          (exec : QueryType -> bindings -> database ->
                  outcome SqlException (list row) * database)
          (associated : database -> string -> Prop),
      (forall pkgId db,
          exists found,
            PkgIdExists exec pkgId db = (Ret found, db)
            /\ (found = true <-> associated db (c_str pkgId))) ->
      (forall appId pkgId pkgIdIsNew db,
          fst (snd (AddApplication exec appId pkgId (pkgIdIsNew, db))) = true
          <-> ~ associated db (c_str pkgId))
      /\ (forall appId pkgId pkgIdIsNoMore db rows db1,
            exec ERemoveApplication [(1, c_str appId); (2, c_str pkgId)] db
            = (Ret rows, db1) ->
            exists isEmpty,
              RemoveApplication exec appId pkgId (pkgIdIsNoMore, db)
              = (Ret tt, (isEmpty, db1))
              /\ (isEmpty = true <-> ~ associated db1 (c_str pkgId))))
  /\ (forall violation b1 b2 b3 b4,
        let exec := exec_spec violation in
        let '(r1, (new1, st1)) :=
          AddApplication exec "app1" "pkgA" (b1, empty_store) in
        let '(r2, (new2, st2)) :=
          AddApplication exec "app2" "pkgA" (b2, st1) in
        let '(r3, (empty3, st3)) :=
          RemoveApplication exec "app1" "pkgA" (b3, st2) in
        let '(r4, (empty4, st4)) :=
          RemoveApplication exec "app2" "pkgA" (b4, st3) in
        (r1, new1) = (Ret tt, true) /\ (r2, new2) = (Ret tt, false)
        /\ (r3, empty3) = (Ret tt, false) /\ (r4, empty4) = (Ret tt, true)
        /\ st4 = empty_store).
Proof.
  split.
  - intros database exec associated Hdecides. split.
    + intros appId pkgId pkgIdIsNew db.
      destruct (Hdecides pkgId db) as [found [Hrun Hfound]].
      rewrite (AddApplication_flag_after_check database exec appId pkgId
                 pkgIdIsNew db found db Hrun).
      rewrite <- Hfound, negb_true_iff, not_true_iff_false. reflexivity.
    + intros appId pkgId pkgIdIsNoMore db rows db1 Hdelete.
      destruct (Hdecides pkgId db1) as [found [Hrun Hfound]].
      exists (negb found). split.
      * apply (RemoveApplication_flag_from_check_after_delete database exec
                 appId pkgId pkgIdIsNoMore db rows db1 found db1 Hdelete Hrun).
      * rewrite <- Hfound, negb_true_iff, not_true_iff_false. reflexivity.
  - intros violation b1 b2 b3 b4. vm_compute.
    repeat split; reflexivity.
Qed.

(** C7: over any store whose statement for removing the grants of an
    application returns normally and, run a second time, leaves the store
    as the first run left it: [RemoveAppPrivileges] returns normally, and
    a second call in a row returns normally and leaves the store as the
    first call left it.  On the store of the specification the statement
    is such a one, the calls leave the store without grants of [appId],
    and when [appId] had no grant the first call too leaves the store as
    it is and raises nothing. *)
Theorem RemoveAppPrivileges_idempotent :
  (forall (database : Type)
          (exec : QueryType -> bindings -> database ->
                  outcome SqlException (list row) * database)
          (remove : string -> database -> database),
      (forall appId db,
          exists rows,
            exec ERemoveAppPrivileges [(1, appId)] db
            = (Ret rows, remove appId db)) ->
      (forall appId db, remove appId (remove appId db) = remove appId db) ->
      forall appId db,
        let '(r1, db1) := RemoveAppPrivileges exec appId db in
        let '(r2, db2) := RemoveAppPrivileges exec appId db1 in
        r1 = Ret tt /\ r2 = Ret tt /\ db2 = db1)
  /\ (forall violation appId st,
        let '(r1, st1) := RemoveAppPrivileges (exec_spec violation) appId st in
        let '(r2, st2) :=
          RemoveAppPrivileges (exec_spec violation) appId st1 in
        r1 = Ret tt /\ r2 = Ret tt /\ st2 = st1
        /\ st1 = without_grants (c_str appId) st
        /\ ((forall privilege, ~ In (c_str appId, privilege) (grants st)) ->
            st1 = st)).
Proof.
  split.
  - intros database exec remove Hruns Hidem appId db.
    rewrite RemoveAppPrivileges_one_statement.
    destruct (Hruns (c_str appId) db) as [rows Hrun]. rewrite Hrun.
    rewrite RemoveAppPrivileges_one_statement.
    destruct (Hruns (c_str appId) (remove (c_str appId) db)) as [rows' Hrun'].
    rewrite Hrun', Hidem. repeat split; reflexivity.
  - intros violation appId st.
    rewrite !RemoveAppPrivileges_spec.
    split; [reflexivity | split; [reflexivity | split; [| split]]].
    + unfold without_grants. simpl. rewrite filter_twice. reflexivity.
    + reflexivity.
    + intros Hnone. destruct st as [a g]. unfold without_grants. simpl in *.
      f_equal. apply filter_all. intros [a' p] Hin. simpl.
      apply negb_true_iff, String.eqb_neq. intros ->.
      exact (Hnone p Hin).
Qed.

Lemma RemoveAppPrivileges_idempotent_witness :
  let st := mkStore [("app1"%string, "pkgA"%string)]
                    [("app1"%string, "camera"%string);
                     ("app2"%string, "location"%string)] in
  let '(r1, st1) :=
    RemoveAppPrivileges (exec_spec DB.InternalError) "app1" st in
  let '(r2, st2) :=
    RemoveAppPrivileges (exec_spec DB.InternalError) "app1" st1 in
  r1 = Ret tt /\ r2 = Ret tt /\ st2 = st1.
Proof.
  destruct RemoveAppPrivileges_idempotent as [Hgeneral _].
  apply (Hgeneral store (exec_spec DB.InternalError) without_grants).
  - intros appId db. exists []. reflexivity.
  - intros appId db. unfold without_grants. simpl.
    rewrite filter_twice. reflexivity.
Defined.

Lemma package_flags_follow_the_store_witness :
  (forall appId pkgId pkgIdIsNew st,
      fst (snd (AddApplication (exec_spec DB.InternalError) appId pkgId
                  (pkgIdIsNew, st))) = true
      <-> ~ package_has_application st (c_str pkgId))
  /\ fst (snd (AddApplication (exec_spec DB.InternalError) "app1" "pkgA"
                 (false, empty_store))) = true.
Proof.
  destruct package_flags_follow_the_store as [Hgeneral _].
  destruct (Hgeneral store (exec_spec DB.InternalError)
              package_has_application
              (PkgIdExists_decides_association DB.InternalError))
    as [Hadd _].
  split; [exact Hadd |].
  apply Hadd. intros [appId Hin]. exact Hin.
Defined.

(** A duplicate insert on the store of the specification, the violation
    being reported as the connection's [InternalError]: the insert step
    raises it, and [AddApplication] fails with
    [PrivilegeDb::Exception::InternalError], which is not
    [ConflictError]. *)
Lemma AddApplication_duplicate_is_InternalError :
  let st := mkStore [("app1"%string, "pkgA"%string)] [] in
  exec_spec DB.InternalError EAddApplication
    [(1, "app1"%string); (2, "pkgA"%string)] st
  = (Throw DB.InternalError, st)
  /\ fst (AddApplication (exec_spec DB.InternalError) "app1" "pkgA" (true, st))
     = Throw (DbExn InternalError)
  /\ fst (AddApplication (exec_spec DB.InternalError) "app1" "pkgA" (true, st))
     <> Throw (DbExn ConflictError).
Proof.
  simpl. split; [reflexivity | split; [reflexivity | discriminate]].
Qed.

Lemma AddApplication_duplicate_fails_as_rethrown_witness :
  let st := mkStore [("app1"%string, "pkgA"%string)] [] in
  let call :=
    AddApplication (exec_spec DB.InternalError) "app1" "pkgA" (true, st) in
  fst call = Throw (rethrown DB.InternalError)
  /\ (DB.InternalError <> OtherError -> fst call = Throw (DbExn InternalError))
  /\ fst call <> Throw (DbExn ConflictError).
Proof.
  apply (AddApplication_duplicate_fails_as_rethrown
           store (exec_spec DB.InternalError) "app1" "pkgA" true
           (mkStore [("app1"%string, "pkgA"%string)] []) true
           (mkStore [("app1"%string, "pkgA"%string)] []) DB.InternalError
           (mkStore [("app1"%string, "pkgA"%string)] [])); reflexivity.
Defined.

Lemma AddApplication_flag_written_before_failed_insert_witness :
  let st := mkStore [("app1"%string, "pkgA"%string)] [] in
  let call :=
    AddApplication (exec_spec DB.InternalError) "app1" "pkgA" (true, st) in
  (exists failure, fst call = Throw failure)
  /\ fst (snd call) = negb true.
Proof.
  apply (AddApplication_flag_written_before_failed_insert
           store (exec_spec DB.InternalError) "app1" "pkgA" true
           (mkStore [("app1"%string, "pkgA"%string)] []) true
           (mkStore [("app1"%string, "pkgA"%string)] []) DB.InternalError
           (mkStore [("app1"%string, "pkgA"%string)] [])); reflexivity.
Defined.

End PrivilegeDbFacts.

(** ** Strings *)

Module StringFacts.

Lemma ascii_compare_refl c : Ascii.compare c c = Eq.
Proof. unfold Ascii.compare. apply N.compare_refl. Qed.

Lemma compare_refl s : String.compare s s = Eq.
Proof.
  induction s as [| c s IH]; simpl; [reflexivity |].
  rewrite ascii_compare_refl. exact IH.
Qed.

Lemma compare_Eq_iff a b : String.compare a b = Eq <-> a = b.
Proof.
  split; [apply String.compare_eq_iff | intros ->; apply compare_refl].
Qed.

Lemma ascii_compare_lt_trans x y z :
  Ascii.compare x y = Lt -> Ascii.compare y z = Lt -> Ascii.compare x z = Lt.
Proof.
  unfold Ascii.compare. rewrite !N.compare_lt_iff. apply N.lt_trans.
Qed.

Lemma str_lt_trans a b c : str_lt a b -> str_lt b c -> str_lt a c.
Proof.
  unfold str_lt. revert b c.
  induction a as [| x a IH]; intros [| y b] [| z c]; simpl;
    try discriminate; auto.
  destruct (Ascii.compare x y) eqn:Hxy; try discriminate;
    destruct (Ascii.compare y z) eqn:Hyz; try discriminate.
  - apply Ascii.compare_eq_iff in Hxy, Hyz. subst.
    rewrite ascii_compare_refl. apply IH.
  - apply Ascii.compare_eq_iff in Hxy. subst. rewrite Hyz. reflexivity.
  - apply Ascii.compare_eq_iff in Hyz. subst. rewrite Hxy. reflexivity.
  - rewrite (ascii_compare_lt_trans x y z Hxy Hyz). reflexivity.
Qed.

Lemma str_lt_neq a b : str_lt a b -> a <> b.
Proof.
  unfold str_lt. intros Hlt ->. rewrite compare_refl in Hlt. discriminate.
Qed.

Lemma compare_Gt_lt a b : String.compare a b = Gt -> str_lt b a.
Proof.
  unfold str_lt. intros Hgt. rewrite String.compare_antisym, Hgt.
  reflexivity.
Qed.

Lemma c_str_string_of_uint d :
  c_str (NilEmpty.string_of_uint d) = NilEmpty.string_of_uint d.
Proof. induction d; simpl; try rewrite IHd; reflexivity. Qed.

(** A decimal numeral has no NUL in it. *)
Lemma c_str_to_string n : c_str (to_string n) = to_string n.
Proof.
  unfold to_string, NilZero.string_of_uint.
  destruct (N.to_uint n); try apply c_str_string_of_uint. reflexivity.
Qed.

Lemma c_str_idempotent s : c_str (c_str s) = c_str s.
Proof.
  induction s as [| c s IH]; simpl; [reflexivity |].
  destruct (Ascii.eqb c zero) eqn:Hc; simpl; [reflexivity |].
  rewrite Hc, IH. reflexivity.
Qed.

Lemma digits_string_of_uint d acc :
  digits (NilEmpty.string_of_uint d) acc true = Some (uint_value d acc).
Proof.
  revert acc. induction d; intros acc; simpl; try rewrite IHd;
    try reflexivity.
  rewrite N.add_0_r. reflexivity.
Qed.

Lemma uint_value_pos d p :
  uint_value d (N.pos p) = N.pos (Pos.of_uint_acc d p).
Proof.
  revert p. induction d; intros p; cbn [uint_value Pos.of_uint_acc];
    try reflexivity;
    match goal with
    | |- uint_value _ ?a = N.pos (Pos.of_uint_acc _ ?q) =>
        replace a with (N.pos q) by lia; apply IHd
    end.
Qed.

Lemma uint_value_of_uint d : uint_value d 0 = N.of_uint d.
Proof.
  unfold N.of_uint.
  induction d; cbn [uint_value Pos.of_uint]; try reflexivity;
    try exact IHd; apply uint_value_pos.
Qed.

(** [std::stoul] reads back what [std::to_string] wrote, as long as the
    number fits [unsigned long]. *)
Lemma stoul_to_string ulong_bits n :
  (n < 2 ^ ulong_bits)%N -> stoul ulong_bits (to_string n) = Converted n.
Proof.
  intros Hfits.
  assert (Hdigits : digits (to_string n) 0 false = Some n).
  { unfold to_string.
    rewrite <- (DecimalN.Unsigned.of_to n) at 2.
    rewrite <- uint_value_of_uint.
    destruct (N.to_uint n); simpl; try reflexivity;
      apply digits_string_of_uint. }
  assert (Hshape :
            stoul ulong_bits (to_string n)
            = match digits (to_string n) 0 false with
              | Some v =>
                  if (2 ^ ulong_bits <=? v)%N then out_of_range
                  else Converted v
              | None => invalid_argument
              end).
  { unfold stoul, to_string. destruct (N.to_uint n); reflexivity. }
  rewrite Hshape, Hdigits.
  destruct (N.leb_spec (2 ^ ulong_bits) n); [lia | reflexivity].
Qed.

End StringFacts.

(** ** [CynaraAdmin] *)

Module CynaraAdminFacts.

Import CynaraAdmin StringFacts.

Section Admin.

Context `{cynara_error_h} `{cynara_admin_types_h}.
Variable cynara_admin : list AdminCall -> AdminCall -> AdminReply.

(** What [SetPolicies] makes of the code Cynara returns. *)
Lemma SetPolicies_nonempty p ps h :
  SetPolicies cynara_admin (p :: ps) h
  = (match checkCynaraError
             (reply_code
                (cynara_admin h (cynara_admin_set_policies (p :: ps))))
     with
     | Ret _ => Ret tt
     | Throw e => Throw e
     end,
     h ++ [cynara_admin_set_policies (p :: ps)]).
Proof.
  unfold SetPolicies, bind, call, checkCynaraError_.
  destruct (checkCynaraError _); reflexivity.
Qed.

(** C9: with an empty batch [SetPolicies] returns normally and makes no
    call on Cynara; with a batch that is not empty it makes exactly one
    call, [cynara_admin_set_policies] with the whole batch, and raises
    only what [checkCynaraError] makes of that call's return code. *)
Theorem SetPolicies_empty_is_noop_else_one_call :
  (forall h, SetPolicies cynara_admin [] h = (Ret tt, h))
  /\ (forall p ps h,
        snd (SetPolicies cynara_admin (p :: ps) h)
        = h ++ [cynara_admin_set_policies (p :: ps)]
        /\ fst (SetPolicies cynara_admin (p :: ps) h)
           = match checkCynaraError
                     (reply_code
                        (cynara_admin h
                           (cynara_admin_set_policies (p :: ps))))
             with
             | Ret _ => Ret tt
             | Throw e => Throw e
             end).
Proof.
  split; [reflexivity |].
  intros p ps h. rewrite SetPolicies_nonempty. split; reflexivity.
Qed.

Lemma to_unsigned_int_small uid :
  (uid < 2 ^ 32)%N -> to_unsigned_int uid = uid.
Proof. intros Hlt. unfold to_unsigned_int. apply N.mod_small, Hlt. Qed.

(** C5: for a 32-bit [uid], [UserInit] with user type ADMIN (SYSTEM,
    GUEST, NORMAL) submits to Cynara, in one call, exactly one rule:
    bucket MAIN, wildcard client, the decimal text of [uid] as user,
    wildcard privilege, result "bucket" with target USER_TYPE_ADMIN
    (USER_TYPE_SYSTEM, USER_TYPE_GUEST, USER_TYPE_NORMAL); with any
    other user type it throws [InvalidParam] and makes no call. *)
Theorem UserInit_one_redirect_rule_or_InvalidParam uid h :
  (uid < 2 ^ 32)%N ->
  snd (UserInit cynara_admin uid SM_USER_TYPE_ADMIN h)
  = h ++ [cynara_admin_set_policies [UserInit_rule uid "USER_TYPE_ADMIN"]]
  /\ snd (UserInit cynara_admin uid SM_USER_TYPE_SYSTEM h)
     = h ++ [cynara_admin_set_policies
               [UserInit_rule uid "USER_TYPE_SYSTEM"]]
  /\ snd (UserInit cynara_admin uid SM_USER_TYPE_GUEST h)
     = h ++ [cynara_admin_set_policies
               [UserInit_rule uid "USER_TYPE_GUEST"]]
  /\ snd (UserInit cynara_admin uid SM_USER_TYPE_NORMAL h)
     = h ++ [cynara_admin_set_policies
               [UserInit_rule uid "USER_TYPE_NORMAL"]]
  /\ (forall userType,
        userType <> SM_USER_TYPE_ADMIN ->
        userType <> SM_USER_TYPE_SYSTEM ->
        userType <> SM_USER_TYPE_GUEST ->
        userType <> SM_USER_TYPE_NORMAL ->
        UserInit cynara_admin uid userType h
        = (Throw CynaraException.InvalidParam, h)).
Proof.
  intros Huid.
  assert (Hrule : forall b target,
             c_str (Buckets_at b) = target ->
             CynaraAdminPolicy_goToBucket CYNARA_ADMIN_WILDCARD
               (to_string (to_unsigned_int uid)) CYNARA_ADMIN_WILDCARD
               (Buckets_at b) (Buckets_at Bucket.MAIN)
             = UserInit_rule uid target).
  { intros b target Hb. unfold CynaraAdminPolicy_goToBucket, UserInit_rule.
    rewrite Hb, (to_unsigned_int_small uid Huid), c_str_to_string,
      CYNARA_ADMIN_WILDCARD_literal.
    reflexivity. }
  repeat split.
  - unfold UserInit. cbn [app]. rewrite SetPolicies_nonempty. cbn [snd].
    rewrite (Hrule Bucket.USER_TYPE_ADMIN _ eq_refl). reflexivity.
  - unfold UserInit. cbn [app]. rewrite SetPolicies_nonempty. cbn [snd].
    rewrite (Hrule Bucket.USER_TYPE_SYSTEM _ eq_refl). reflexivity.
  - unfold UserInit. cbn [app]. rewrite SetPolicies_nonempty. cbn [snd].
    rewrite (Hrule Bucket.USER_TYPE_GUEST _ eq_refl). reflexivity.
  - unfold UserInit. cbn [app]. rewrite SetPolicies_nonempty. cbn [snd].
    rewrite (Hrule Bucket.USER_TYPE_NORMAL _ eq_refl). reflexivity.
  - intros userType Ha Hs Hg Hn.
    destruct userType; try reflexivity; contradiction.
Qed.

(** *** The sort-merge join of [UpdateAppPolicy] *)

Lemma absent_existsb x l :
  ~ In x l -> existsb (String.eqb x) l = false.
Proof.
  intros Hnot. apply not_true_iff_false. intros Hex.
  apply existsb_exists in Hex. destruct Hex as [y [Hin Hy]].
  apply String.eqb_eq in Hy. subst y. exact (Hnot Hin).
Qed.

Lemma removed_nil_r a : removed a [] = a.
Proof. unfold removed. apply PrivilegeDbFacts.filter_all. reflexivity. Qed.

Lemma removed_cons_absent x a b :
  ~ In x b -> removed (x :: a) b = x :: removed a b.
Proof.
  intros Hnot. unfold removed. simpl.
  rewrite (absent_existsb x b Hnot). reflexivity.
Qed.

Lemma removed_cons_present x a b :
  In x b -> removed (x :: a) b = removed a b.
Proof.
  intros Hin. unfold removed. simpl.
  replace (existsb (String.eqb x) b) with true; [reflexivity |].
  symmetry. apply existsb_exists. exists x. split; [exact Hin |].
  apply String.eqb_refl.
Qed.

Lemma removed_drop x a b :
  ~ In x a -> removed a (x :: b) = removed a b.
Proof.
  intros Hnot. unfold removed. apply filter_ext_in. intros p Hp. simpl.
  replace (String.eqb p x) with false; [reflexivity |].
  symmetry. apply String.eqb_neq. intros ->. exact (Hnot Hp).
Qed.

Lemma removed_In p a b : In p (removed a b) <-> In p a /\ ~ In p b.
Proof.
  unfold removed. rewrite filter_In, negb_true_iff. split.
  - intros [Ha Hb]. split; [exact Ha |]. intros Hin.
    assert (Hex : existsb (String.eqb p) b = true).
    { apply existsb_exists. exists p. split; [exact Hin |].
      apply String.eqb_refl. }
    congruence.
  - intros [Ha Hb]. split; [exact Ha | apply absent_existsb, Hb].
Qed.

Lemma Sorted_strongly l : Sorted str_lt l -> StronglySorted str_lt l.
Proof.
  apply Sorted_StronglySorted. intros a b c. apply str_lt_trans.
Qed.

Lemma below_all_absent x y l :
  str_lt x y -> StronglySorted str_lt (y :: l) -> ~ In x (y :: l).
Proof.
  intros Hxy Hs [Heq | Hin].
  - subst y. exact (str_lt_neq x x Hxy eq_refl).
  - apply StronglySorted_inv in Hs. destruct Hs as [_ Hall].
    rewrite Forall_forall in Hall.
    exact (str_lt_neq x x (str_lt_trans x y x Hxy (Hall x Hin)) eq_refl).
Qed.

Lemma head_absent_tail x l :
  StronglySorted str_lt (x :: l) -> ~ In x l.
Proof.
  intros Hs Hin. apply StronglySorted_inv in Hs. destruct Hs as [_ Hall].
  rewrite Forall_forall in Hall.
  exact (str_lt_neq x x (Hall x Hin) eq_refl).
Qed.

Lemma Sorted_NoDup l : StronglySorted str_lt l -> NoDup l.
Proof.
  induction l as [| x l IH]; intros Hs; constructor.
  - apply head_absent_tail, Hs.
  - apply IH. apply StronglySorted_inv in Hs. apply Hs.
Qed.

(** Sorted and free of duplicates is strictly ascending. *)
Lemma sorted_unique_iff l :
  Sorted str_le l /\ NoDup l <-> Sorted str_lt l.
Proof.
  split.
  - intros [Hsorted Hnodup].
    induction l as [| x l IH]; constructor.
    + apply IH.
      * inversion Hsorted; assumption.
      * inversion Hnodup; assumption.
    + inversion Hsorted as [| ? ? _ Hhd]; subst.
      inversion Hnodup as [| ? ? Hnotin _]; subst.
      destruct Hhd as [| y l' Hxy]; constructor.
      unfold str_le in Hxy. unfold str_lt.
      destruct (String.compare x y) eqn:Hcmp; try reflexivity.
      * apply String.compare_eq_iff in Hcmp. subst y.
        exfalso. apply Hnotin. left. reflexivity.
      * contradiction.
  - intros Hstrict. split.
    + induction Hstrict as [| x l _ IH Hhd]; constructor; [exact IH |].
      destruct Hhd as [| y l' Hxy]; constructor.
      unfold str_lt in Hxy. unfold str_le. rewrite Hxy. discriminate.
    + apply Sorted_NoDup, Sorted_strongly, Hstrict.
Qed.

Lemma push_back_all {A B} (f : A -> B) l acc :
  fold_left (fun policies x => policies ++ [f x]) l acc = acc ++ map f l.
Proof.
  revert acc. induction l as [| x l IH]; intros acc; simpl.
  - symmetry. apply app_nil_r.
  - rewrite IH, <- app_assoc. reflexivity.
Qed.

(** The policies built are those pushed by the join followed by a
    [Delete_rule] for each old privilege left and an [Allow_rule] for
    each new privilege left. *)
Lemma UpdateAppPolicy_policies_unfold label user oldP newP :
  UpdateAppPolicy_policies label user oldP newP
  = let '(policies, oldRest, newRest) :=
      sort_merge_join label user oldP newP [] in
    policies ++ map (Delete_rule label user) oldRest
             ++ map (Allow_rule label user) newRest.
Proof.
  unfold UpdateAppPolicy_policies.
  destruct (sort_merge_join label user oldP newP [])
    as [[policies oldRest] newRest].
  unfold Allow_rule, Delete_rule.
  rewrite !push_back_all, <- app_assoc. reflexivity.
Qed.

Lemma sort_merge_join_difference label user oldP :
  forall newP acc,
    StronglySorted str_lt oldP -> StronglySorted str_lt newP ->
    let '(policies, oldRest, newRest) :=
      sort_merge_join label user oldP newP acc in
    Permutation
      (policies ++ map (Delete_rule label user) oldRest
                ++ map (Allow_rule label user) newRest)
      (acc ++ map (Delete_rule label user) (removed oldP newP)
           ++ map (Allow_rule label user) (removed newP oldP)).
Proof.
  induction oldP as [| o oldP IHold]; intros newP acc Hold Hnew.
  - destruct newP; simpl; rewrite ?removed_nil_r; reflexivity.
  - induction newP as [| n newP IHnew] in acc, Hnew |- *.
    + simpl sort_merge_join. rewrite removed_nil_r. reflexivity.
    + simpl sort_merge_join.
      destruct (String.compare o n) eqn:Hcmp.
      * apply String.compare_eq_iff in Hcmp. subst n.
        pose proof (StronglySorted_inv Hold) as [Hold' _].
        pose proof (StronglySorted_inv Hnew) as [Hnew' _].
        specialize (IHold newP acc Hold' Hnew').
        rewrite (removed_cons_present o oldP (o :: newP))
          by (left; reflexivity).
        rewrite (removed_cons_present o newP (o :: oldP))
          by (left; reflexivity).
        rewrite (removed_drop o oldP newP) by (apply head_absent_tail, Hold).
        rewrite (removed_drop o newP oldP) by (apply head_absent_tail, Hnew).
        exact IHold.
      * pose proof (StronglySorted_inv Hold) as [Hold' _].
        specialize (IHold (n :: newP)
                      (acc ++ [CynaraAdminPolicy label user o
                                 (Operation_to_int Operation.Delete)
                                 (Buckets_at Bucket.MANIFESTS)])
                      Hold' Hnew).
        destruct (sort_merge_join label user oldP (n :: newP) _)
          as [[policies oldRest] newRest].
        rewrite IHold.
        rewrite (removed_cons_absent o oldP (n :: newP))
          by (apply below_all_absent; assumption).
        rewrite (removed_drop o (n :: newP) oldP)
          by (apply below_all_absent; assumption).
        simpl. rewrite <- app_assoc. reflexivity.
      * apply compare_Gt_lt in Hcmp.
        pose proof (StronglySorted_inv Hnew) as [Hnew' _].
        specialize (IHnew (acc ++ [CynaraAdminPolicy label user n
                                     (Operation_to_int Operation.Allow)
                                     (Buckets_at Bucket.MANIFESTS)])
                      Hnew').
        change ((fix against (newPrivileges : list string)
                   (policies : list cynara_admin_policy)
                   {struct newPrivileges} := _) newP ?a)
          with (sort_merge_join label user (o :: oldP) newP a) in *.
        destruct (sort_merge_join label user (o :: oldP) newP _)
          as [[policies oldRest] newRest].
        rewrite IHnew.
        rewrite (removed_cons_absent n newP (o :: oldP))
          by (apply below_all_absent; assumption).
        rewrite (removed_drop n (o :: oldP) newP)
          by (apply below_all_absent; assumption).
        rewrite <- app_assoc. apply Permutation_app_head.
        cbn [map app]. apply Permutation_middle.
Qed.

Lemma UpdateAppPolicy_policies_difference label user oldP newP :
  Sorted str_lt oldP -> Sorted str_lt newP ->
  Permutation
    (UpdateAppPolicy_policies label user oldP newP)
    (map (Delete_rule label user) (removed oldP newP)
       ++ map (Allow_rule label user) (removed newP oldP)).
Proof.
  intros Hold Hnew. rewrite UpdateAppPolicy_policies_unfold.
  pose proof (sort_merge_join_difference label user oldP newP []
                (Sorted_strongly oldP Hold) (Sorted_strongly newP Hnew))
    as Hjoin.
  destruct (sort_merge_join label user oldP newP [])
    as [[policies oldRest] newRest].
  exact Hjoin.
Qed.

Lemma removed_NoDup a b : NoDup a -> NoDup (removed a b).
Proof. intros Ha. unfold removed. apply NoDup_filter, Ha. Qed.

(** C2: for privilege sequences sorted in the order of
    [std::string::compare] and free of duplicates, [UpdateAppPolicy]
    builds, up to order, one [Delete_rule] for each
    privilege of the old sequence that is not in the new one and one
    [Allow_rule] for each privilege of the new sequence that is not in
    the old one, and nothing else; both kinds of rule are in bucket
    MANIFESTS; the batch goes to [SetPolicies] in one call, which passes
    it to Cynara in one call when it is not empty; for old = [a;b;c]
    and new = [b;c;d] the batch is [Delete a; Allow d]. *)
Theorem UpdateAppPolicy_emits_the_difference label user oldP newP h :
  Sorted str_le oldP -> NoDup oldP ->
  Sorted str_le newP -> NoDup newP ->
  let batch := UpdateAppPolicy_policies label user oldP newP in
  Permutation batch
    (map (Delete_rule label user) (removed oldP newP)
       ++ map (Allow_rule label user) (removed newP oldP))
  /\ (forall p, In p (removed oldP newP) <-> In p oldP /\ ~ In p newP)
  /\ (forall p, In p (removed newP oldP) <-> In p newP /\ ~ In p oldP)
  /\ NoDup (removed oldP newP) /\ NoDup (removed newP oldP)
  /\ (forall p,
        Delete_rule label user p
        = mkPolicy "MANIFESTS" (c_str label) (c_str user) (c_str p)
                   CYNARA_ADMIN_DELETE None
        /\ Allow_rule label user p
           = mkPolicy "MANIFESTS" (c_str label) (c_str user) (c_str p)
                      CYNARA_ADMIN_ALLOW None)
  /\ UpdateAppPolicy cynara_admin label user oldP newP h
     = SetPolicies cynara_admin batch h
  /\ snd (UpdateAppPolicy cynara_admin label user oldP newP h)
     = match batch with
       | [] => h
       | _ :: _ => h ++ [cynara_admin_set_policies batch]
       end
  /\ (forall a b c d,
        oldP = [a; b; c] -> newP = [b; c; d] ->
        batch = [Delete_rule label user a; Allow_rule label user d]).
Proof.
  intros Hold_le Hold_nodup Hnew_le Hnew_nodup batch.
  assert (Hold : Sorted str_lt oldP)
    by (apply sorted_unique_iff; split; assumption).
  assert (Hnew : Sorted str_lt newP)
    by (apply sorted_unique_iff; split; assumption).
  split; [apply UpdateAppPolicy_policies_difference; assumption |].
  split; [intros p; apply removed_In |].
  split; [intros p; apply removed_In |].
  split; [apply removed_NoDup, Hold_nodup |].
  split; [apply removed_NoDup, Hnew_nodup |].
  split; [intros p; split; reflexivity |].
  split; [reflexivity |].
  split.
  - unfold UpdateAppPolicy. fold batch.
    destruct batch as [| p ps]; [reflexivity |].
    rewrite SetPolicies_nonempty. reflexivity.
  - intros a b c d -> ->. subst batch.
    assert (Hab : String.compare a b = Lt).
    { inversion Hold as [| x l _ Hhd]; subst.
      inversion Hhd; subst. assumption. }
    unfold UpdateAppPolicy_policies. simpl sort_merge_join.
    rewrite Hab, !compare_refl. reflexivity.
Qed.

(** *** [ListUsers] *)

Variable ulong_bits : N.

Lemma digits_seen s acc : digits s acc true <> None.
Proof.
  revert acc. induction s as [| c s IH]; intros acc; simpl.
  - discriminate.
  - destruct (digit c); [apply IH | discriminate].
Qed.

Lemma digits_None s :
  digits s 0 false = None
  <-> match s with
      | String c _ => digit c = None
      | EmptyString => True
      end.
Proof.
  destruct s as [| c s]; simpl.
  - split; auto.
  - destruct (digit c) as [d |].
    + split; [intros Hd; exfalso; exact (digits_seen _ _ Hd) | discriminate].
    + split; auto.
Qed.

(** [std::stoul] reports [invalid_argument] exactly for the tokens in
    which no digit follows the optional white space and sign. *)
Lemma stoul_invalid_argument_iff str :
  stoul ulong_bits str = invalid_argument <-> starts_with_number str = false.
Proof.
  unfold stoul, starts_with_number.
  set (s := skip_space str).
  set (t := match s with
            | String "-"%char rest => rest
            | String "+"%char rest => rest
            | _ => s
            end).
  assert (Hshape :
            (let '(negative, s0) :=
               match s with
               | String "-"%char rest => (true, rest)
               | String "+"%char rest => (false, rest)
               | _ => (false, s)
               end in
             match digits s0 0 false with
             | Some v =>
                 if (2 ^ ulong_bits <=? v)%N
                 then out_of_range
                 else Converted
                        (if negative
                         then ((2 ^ ulong_bits - v) mod 2 ^ ulong_bits)%N
                         else v)
             | None => invalid_argument
             end) = invalid_argument
            <-> digits t 0 false = None).
  { subst t. destruct s as [| c rest]; simpl.
    - split; reflexivity.
    - destruct c as [[] [] [] [] [] [] [] []];
        cbv beta iota;
        match goal with
        | |- context [digits ?x 0 false] =>
            destruct (digits x 0 false) as [v |];
            [ destruct (2 ^ ulong_bits <=? v)%N;
              split; discriminate
            | split; reflexivity ]
        end. }
  rewrite Hshape, digits_None.
  destruct t as [| c rest]; [split; reflexivity |].
  destruct (digit c); split; try discriminate; reflexivity.
Qed.

Lemma wildcard_compare user :
  String.compare user (c_str CYNARA_ADMIN_WILDCARD) = Eq
  <-> String.eqb user CYNARA_ADMIN_WILDCARD = true.
Proof.
  rewrite CYNARA_ADMIN_WILDCARD_literal, compare_Eq_iff, String.eqb_eq.
  reflexivity.
Qed.

(** The loop of [ListUsers] when no listed token is out of range. *)
Lemma ListUsers_loop_in_range tmpListOfUsers :
  forall listOfUsers,
    Forall (fun p =>
              c_str (pol_user p) = CYNARA_ADMIN_WILDCARD
              \/ stoul ulong_bits (c_str (pol_user p)) <> out_of_range)
           tmpListOfUsers ->
    ListUsers_loop ulong_bits tmpListOfUsers listOfUsers
    = (Ret tt,
       listOfUsers ++ flat_map (listed_uid ulong_bits) tmpListOfUsers).
Proof.
  induction tmpListOfUsers as [| p rest IH]; intros listOfUsers Hall.
  - simpl. rewrite app_nil_r. reflexivity.
  - apply Forall_cons_iff in Hall. destruct Hall as [Hp Hrest].
    simpl. unfold listed_uid at 1.
    destruct (String.eqb (c_str (pol_user p)) CYNARA_ADMIN_WILDCARD)
      eqn:Hwild.
    + apply wildcard_compare in Hwild. rewrite Hwild.
      apply IH, Hrest.
    + destruct (String.compare (c_str (pol_user p))
                  (c_str CYNARA_ADMIN_WILDCARD)) eqn:Hcmp.
      * apply wildcard_compare in Hcmp. congruence.
      * destruct (stoul ulong_bits (c_str (pol_user p))) eqn:Hparse.
        -- rewrite (IH _ Hrest), <- app_assoc. reflexivity.
        -- apply IH, Hrest.
        -- destruct Hp as [Hw | Hr]; [| contradiction].
           apply String.eqb_eq in Hw. congruence.
      * destruct (stoul ulong_bits (c_str (pol_user p))) eqn:Hparse.
        -- rewrite (IH _ Hrest), <- app_assoc. reflexivity.
        -- apply IH, Hrest.
        -- destruct Hp as [Hw | Hr]; [| contradiction].
           apply String.eqb_eq in Hw. congruence.
Qed.

Lemma ListUsers_listing h :
  ListPolicies cynara_admin (Buckets_at Bucket.MAIN) CYNARA_ADMIN_WILDCARD
    CYNARA_ADMIN_ANY CYNARA_ADMIN_WILDCARD [] h
  = (match checkCynaraError
             (reply_code (cynara_admin h ListUsers_call))
     with
     | Ret _ => Ret (reply_policies (cynara_admin h ListUsers_call))
     | Throw e => Throw e
     end,
     h ++ [ListUsers_call]).
Proof.
  unfold ListPolicies, bind, call, checkCynaraError_, ListUsers_call, ret.
  simpl c_str.
  rewrite CYNARA_ADMIN_WILDCARD_literal, CYNARA_ADMIN_ANY_literal.
  destruct (checkCynaraError _); reflexivity.
Qed.

(** The loop reads back the user of a rule that [UserInit] wrote. *)
Lemma listed_uid_UserInit_rule uid target :
  (uid < 2 ^ 32)%N -> (32 <= ulong_bits)%N ->
  to_string uid <> CYNARA_ADMIN_WILDCARD ->
  listed_uid ulong_bits (UserInit_rule uid target) = [uid].
Proof.
  intros Huid Hwide Hwild. unfold listed_uid, UserInit_rule. simpl pol_user.
  rewrite c_str_to_string.
  apply String.eqb_neq in Hwild. rewrite Hwild.
  rewrite stoul_to_string.
  - rewrite (to_unsigned_int_small uid Huid). reflexivity.
  - apply N.lt_le_trans with (2 ^ 32)%N; [exact Huid |].
    apply N.pow_le_mono_r; [discriminate | exact Hwide].
Qed.

(** C8, as the code has it: [ListUsers] lists the wildcard-client rules
    of bucket MAIN in one call and, when the listing succeeds and no
    listed user token other than the wildcard holds a number above the
    range of [unsigned long], returns normally with the caller's vector
    extended, in listing order, by one uid for each user token other than
    the wildcard that [std::stoul] converts: the converted value narrowed
    to the 32-bit [uid_t], that is, taken modulo [2 ^ 32], whatever
    follows the digits of the token.  A token in which no digit follows
    the optional white space and sign adds nothing, and neither does the
    wildcard. *)
Theorem ListUsers_reads_leading_numbers listOfUsers h :
  (exists b,
      checkCynaraError (reply_code (cynara_admin h ListUsers_call))
      = Ret b) ->
  Forall (fun p =>
            c_str (pol_user p) = CYNARA_ADMIN_WILDCARD
            \/ stoul ulong_bits (c_str (pol_user p)) <> out_of_range)
         (reply_policies (cynara_admin h ListUsers_call)) ->
  ListUsers cynara_admin ulong_bits (listOfUsers, h)
  = (Ret tt,
     (listOfUsers
        ++ flat_map (listed_uid ulong_bits)
             (reply_policies (cynara_admin h ListUsers_call)),
      h ++ [ListUsers_call]))
  /\ (forall p,
        starts_with_number (c_str (pol_user p)) = false ->
        listed_uid ulong_bits p = [])
  /\ (forall p,
        c_str (pol_user p) = CYNARA_ADMIN_WILDCARD ->
        listed_uid ulong_bits p = [])
  /\ (forall p value,
        c_str (pol_user p) <> CYNARA_ADMIN_WILDCARD ->
        stoul ulong_bits (c_str (pol_user p)) = Converted value ->
        listed_uid ulong_bits p = [to_unsigned_int value]).
Proof.
  intros [b Hcode] Hall. repeat split.
  - unfold ListUsers. rewrite ListUsers_listing, Hcode.
    rewrite (ListUsers_loop_in_range _ listOfUsers Hall). reflexivity.
  - intros p Hno. unfold listed_uid.
    apply stoul_invalid_argument_iff in Hno. rewrite Hno.
    destruct (String.eqb _ _); reflexivity.
  - intros p Hw. unfold listed_uid. rewrite Hw, String.eqb_refl.
    reflexivity.
  - intros p value Hw Hparse. unfold listed_uid.
    apply String.eqb_neq in Hw. rewrite Hw, Hparse. reflexivity.
Qed.

End Admin.

(** Instances at the values of the Cynara headers. *)
#[local] Existing Instance libcynara_error_h.
#[local] Existing Instance libcynara_admin_types_h.

Lemma UpdateAppPolicy_emits_the_difference_witness :
  let oldP := ["a"; "b"; "c"]%string in
  let newP := ["b"; "c"; "d"]%string in
  let batch :=
    UpdateAppPolicy_policies "app"%string "5001"%string oldP newP in
  Permutation batch
    (map (Delete_rule "app" "5001") (removed oldP newP)
       ++ map (Allow_rule "app" "5001") (removed newP oldP))
  /\ batch = [Delete_rule "app" "5001" "a"; Allow_rule "app" "5001" "d"].
Proof.
  pose proof
    (@UpdateAppPolicy_emits_the_difference
       libcynara_error_h libcynara_admin_types_h
       (fun _ _ => mkReply 0 []) "app"%string "5001"%string
       ["a"; "b"; "c"]%string ["b"; "c"; "d"]%string [])
    as Hthm.
  cbv zeta in Hthm.
  destruct Hthm as [Hperm [_ [_ [_ [_ [_ [_ [_ Hexample]]]]]]]].
  - repeat constructor; discriminate.
  - repeat (constructor; [simpl; intuition discriminate |]). constructor.
  - repeat constructor; discriminate.
  - repeat (constructor; [simpl; intuition discriminate |]). constructor.
  - split; [exact Hperm | exact (Hexample _ _ _ _ eq_refl eq_refl)].
Defined.

Lemma UserInit_one_redirect_rule_or_InvalidParam_witness :
  snd (UserInit (fun _ _ => mkReply 0 []) 5001 SM_USER_TYPE_ADMIN [])
  = [cynara_admin_set_policies [UserInit_rule 5001 "USER_TYPE_ADMIN"]]
  /\ UserInit (fun _ _ => mkReply 0 []) 5001 SM_USER_TYPE_NONE []
     = (Throw CynaraException.InvalidParam, []).
Proof.
  pose proof
    (@UserInit_one_redirect_rule_or_InvalidParam
       libcynara_error_h libcynara_admin_types_h
       (fun _ _ => mkReply 0 []) 5001%N [] eq_refl)
    as [Hadmin [_ [_ [_ Hother]]]].
  split; [exact Hadmin | apply Hother; discriminate].
Defined.

(** The token 12abc is not a number, and [ListUsers] does not skip it: it
    returns the user 12. *)
Lemma ListUsers_keeps_12abc :
  numeric "12abc" = false
  /\ ListUsers (lists_one_user "12abc") 64 ([], [])
     = (Ret tt, ([12%N], [ListUsers_call])).
Proof. split; reflexivity. Qed.

(** The [std::out_of_range] of [std::stoul] leaves [ListUsers]: a token
    whose digits exceed [unsigned long] ends the call with it. *)
Lemma ListUsers_out_of_range_escapes :
  ListUsers (lists_one_user "99999999999999999999x") 64 ([], [])
  = (Throw std_out_of_range, ([], [ListUsers_call])).
Proof. reflexivity. Qed.

(** A listing with a token without digits, the wildcard, a token whose
    digits are followed by letters, a negative number, a number above
    [2 ^ 32] and a number after white space. *)
Lemma ListUsers_reads_leading_numbers_witness :
  ListUsers
    (lists_users ["abc"; "*"; "12abc"; "-1"; "4294967296"; " 5001"]%string)
    64 ([7%N], [])
  = (Ret tt, ([7; 12; 4294967295; 0; 5001]%N, [ListUsers_call]))
  /\ listed_uid 64
       (mkPolicy "MAIN" "*" "abc" "*" 65534 (Some "USER_TYPE_NORMAL"%string))
     = []
  /\ listed_uid 64
       (mkPolicy "MAIN" "*" "12abc" "*" 65534
          (Some "USER_TYPE_NORMAL"%string))
     = [12%N]
  /\ listed_uid 64
       (mkPolicy "MAIN" "*" "-1" "*" 65534 (Some "USER_TYPE_NORMAL"%string))
     = [4294967295%N].
Proof.
  pose proof
    (@ListUsers_reads_leading_numbers
       libcynara_error_h libcynara_admin_types_h
       (lists_users
          ["abc"; "*"; "12abc"; "-1"; "4294967296"; " 5001"]%string)
       64%N [7%N] [])
    as Hthm.
  destruct Hthm as [Hrun [Hskip [_ Hkeep]]].
  - exists true. reflexivity.
  - unfold lists_users. cbn [reply_policies map].
    constructor; [right; discriminate |].
    constructor; [left; reflexivity |].
    constructor; [right; discriminate |].
    constructor; [right; discriminate |].
    constructor; [right; discriminate |].
    constructor; [right; discriminate | constructor].
  - split; [exact Hrun |].
    split; [apply Hskip; reflexivity |].
    split.
    + apply (Hkeep _ 12%N); [discriminate | reflexivity].
    + apply (Hkeep _ 18446744073709551615%N); [discriminate | reflexivity].
Defined.

End CynaraAdminFacts.

(** ** [Cynara] *)

Module CynaraFacts.

Import Cynara.

Section Client.

Context `{cynara_error_h}.

Local Open Scope Z_scope.

Ltac split_disjunctions :=
  repeat match goal with
         | Hor : ~ (_ \/ _) |- _ =>
             apply Decidable.not_or in Hor; destruct Hor as [? Hor]
         end.

Ltac distinct_labels Hlabels :=
  unfold case_labels in Hlabels;
  repeat match goal with
         | Hn : NoDup (_ :: _) |- _ =>
             apply NoDup_cons_iff in Hn; destruct Hn as [? Hn]
         end;
  simpl in *; split_disjunctions.

Ltac decide_labels :=
  repeat match goal with
         | |- context [(?a =? ?b)%Z] =>
             let Heq := fresh "Heq" in
             let Hne := fresh "Hne" in
             destruct (Z.eqb_spec a b) as [Heq | Hne];
             [ try (exfalso;
                    first [ contradiction
                          | symmetry in Heq; contradiction ])
             | try (exfalso; apply Hne; reflexivity) ]
         end.

Lemma checkCynaraError_SUCCESS :
  checkCynaraError CYNARA_API_SUCCESS = Ret true.
Proof. unfold checkCynaraError. rewrite Z.eqb_refl. reflexivity. Qed.

Lemma checkCynaraError_ACCESS_ALLOWED :
  checkCynaraError CYNARA_API_ACCESS_ALLOWED = Ret true.
Proof.
  unfold checkCynaraError. rewrite (Z.eqb_refl CYNARA_API_ACCESS_ALLOWED).
  destruct (_ =? _); reflexivity.
Qed.

Lemma checkCynaraError_ACCESS_DENIED :
  NoDup case_labels ->
  checkCynaraError CYNARA_API_ACCESS_DENIED = Ret false.
Proof.
  intros Hlabels. distinct_labels Hlabels.
  unfold checkCynaraError. decide_labels; reflexivity.
Qed.

Lemma checkCynaraError_other result :
  result <> CYNARA_API_SUCCESS ->
  result <> CYNARA_API_ACCESS_ALLOWED ->
  result <> CYNARA_API_ACCESS_DENIED ->
  exists e, checkCynaraError result = Throw e.
Proof.
  intros Hs Ha Hd. unfold checkCynaraError.
  decide_labels; eexists; reflexivity.
Qed.

(** The kind thrown for each of the other codes the [switch] names, and
    for a code it does not name. *)
Lemma checkCynaraError_classifies :
  NoDup case_labels ->
  checkCynaraError CYNARA_API_MAX_PENDING_REQUESTS
  = Throw CynaraException.MaxPendingRequests
  /\ checkCynaraError CYNARA_API_OUT_OF_MEMORY
     = Throw CynaraException.OutOfMemory
  /\ checkCynaraError CYNARA_API_INVALID_PARAM
     = Throw CynaraException.InvalidParam
  /\ checkCynaraError CYNARA_API_SERVICE_NOT_AVAILABLE
     = Throw CynaraException.ServiceNotAvailable
  /\ checkCynaraError CYNARA_API_METHOD_NOT_SUPPORTED
     = Throw CynaraException.MethodNotSupported
  /\ checkCynaraError CYNARA_API_OPERATION_NOT_ALLOWED
     = Throw CynaraException.OperationNotAllowed
  /\ checkCynaraError CYNARA_API_OPERATION_FAILED
     = Throw CynaraException.OperationFailed
  /\ checkCynaraError CYNARA_API_BUCKET_NOT_FOUND
     = Throw CynaraException.BucketNotFound
  /\ (forall result,
        ~ In result case_labels ->
        checkCynaraError result = Throw CynaraException.UnknownError).
Proof.
  intros Hlabels. pose proof Hlabels as Hcopy. distinct_labels Hcopy.
  repeat split; try (unfold checkCynaraError; decide_labels; reflexivity).
  intros result Hnot. unfold case_labels in Hnot. simpl in Hnot.
  split_disjunctions.
  unfold checkCynaraError. decide_labels; reflexivity.
Qed.

Variable cynara_async : list ClientCall -> ClientCall -> ClientReply.
Variable completion :
  cynara_check_id -> option (cynara_async_call_cause * Z).

(** C6: when the cache lookup of [check] returns anything other than
    [CYNARA_API_CACHE_MISS], [check] returns at once what
    [checkCynaraError] makes of the code -- [true] for
    [CYNARA_API_SUCCESS] and [CYNARA_API_ACCESS_ALLOWED], [false] for
    [CYNARA_API_ACCESS_DENIED], an exception for any other code -- and
    the lookup is the only call it has made: no request is created and
    the worker's eventfd is not written.  When the lookup returns
    [CYNARA_API_CACHE_MISS], [check] does not pass the code to
    [checkCynaraError]: it goes on to create the request. *)
Theorem check_cache_hit_makes_no_request label privilege user session h :
  NoDup case_labels ->
  let lookup :=
    cynara_async_check_cache (c_str label) (c_str session) (c_str user)
      (c_str privilege) in
  let request :=
    cynara_async_create_request (c_str label) (c_str session)
      (c_str user) (c_str privilege) in
  let ret := client_code (cynara_async h lookup) in
  (ret <> CYNARA_API_CACHE_MISS ->
   check cynara_async completion label privilege user session h
   = (Some (checkCynaraError ret), h ++ [lookup])
   /\ (ret = CYNARA_API_SUCCESS \/ ret = CYNARA_API_ACCESS_ALLOWED ->
       checkCynaraError ret = Ret true)
   /\ (ret = CYNARA_API_ACCESS_DENIED -> checkCynaraError ret = Ret false)
   /\ (ret <> CYNARA_API_SUCCESS ->
       ret <> CYNARA_API_ACCESS_ALLOWED ->
       ret <> CYNARA_API_ACCESS_DENIED ->
       exists e, checkCynaraError ret = Throw e))
  /\ (ret = CYNARA_API_CACHE_MISS ->
      check cynara_async completion label privilege user session h
      = check_async cynara_async completion label privilege user session
          (h ++ [lookup])
      /\ exists rest,
          snd (check cynara_async completion label privilege user
                 session h)
          = h ++ lookup :: request :: rest).
Proof.
  intros Hlabels lookup request ret. split.
  - intros Hhit. split; [| split; [| split]].
    + unfold check, client_call. fold lookup. fold ret.
      destruct (Z.eqb_spec ret CYNARA_API_CACHE_MISS);
        [contradiction | reflexivity].
    + intros [-> | ->];
        [apply checkCynaraError_SUCCESS
        | apply checkCynaraError_ACCESS_ALLOWED].
    + intros ->. apply checkCynaraError_ACCESS_DENIED, Hlabels.
    + apply checkCynaraError_other.
  - intros Hmiss.
    assert (Hcheck :
              check cynara_async completion label privilege user session h
              = check_async cynara_async completion label privilege user
                  session (h ++ [lookup])).
    { unfold check, client_call. fold lookup. fold ret.
      rewrite Hmiss, Z.eqb_refl. reflexivity. }
    split; [exact Hcheck |].
    rewrite Hcheck. unfold check_async, client_call. fold request.
    destruct (checkCynaraError _).
    * exists [eventfd_write]. unfold threadNotifyPut. simpl.
      rewrite <- !app_assoc. reflexivity.
    * exists []. simpl. rewrite <- app_assoc. reflexivity.
Qed.

(** What [responseCallback] stores for a cancelled or finished request
    is the [bool] that the [int] [CYNARA_API_ACCESS_DENIED] converts
    to. *)
Lemma responseCallback_cancel_finish checkId response :
  responseCallback checkId CYNARA_CALL_CAUSE_CANCEL response Unresolved
  = (Ret tt, Value (int_to_bool CYNARA_API_ACCESS_DENIED))
  /\ responseCallback checkId CYNARA_CALL_CAUSE_FINISH response Unresolved
     = (Ret tt, Value (int_to_bool CYNARA_API_ACCESS_DENIED)).
Proof. split; reflexivity. Qed.

(** Wherever [CYNARA_API_SUCCESS] is 0, the value stored is [true]: the
    two codes are different labels of one [switch]. *)
Lemma responseCallback_cancel_finish_true checkId response :
  NoDup case_labels ->
  CYNARA_API_SUCCESS = 0 ->
  responseCallback checkId CYNARA_CALL_CAUSE_CANCEL response Unresolved
  = (Ret tt, Value true)
  /\ responseCallback checkId CYNARA_CALL_CAUSE_FINISH response Unresolved
     = (Ret tt, Value true).
Proof.
  intros Hlabels Hzero.
  assert (Hdenied : int_to_bool CYNARA_API_ACCESS_DENIED = true).
  { distinct_labels Hlabels. unfold int_to_bool.
    destruct (Z.eqb_spec CYNARA_API_ACCESS_DENIED 0) as [Hd |];
      [| reflexivity].
    exfalso. congruence. }
  simpl. rewrite Hdenied. split; reflexivity.
Qed.

(** An answer is stored through the same conversion: [true] for any
    response other than 0. *)
Lemma responseCallback_answer checkId response :
  responseCallback checkId CYNARA_CALL_CAUSE_ANSWER response Unresolved
  = (Ret tt, Value (negb (response =? 0))).
Proof. reflexivity. Qed.

(** A result is stored once: the callback on a promise that holds one
    raises [promise_already_satisfied] and leaves it. *)
Lemma responseCallback_once checkId cause response p :
  p <> Unresolved ->
  responseCallback checkId cause response p
  = (Throw promise_already_satisfied, p).
Proof.
  intros Hp. destruct cause, p; try contradiction; reflexivity.
Qed.

End Client.

#[local] Existing Instance libcynara_error_h.

Lemma libcynara_case_labels_distinct : NoDup case_labels.
Proof.
  unfold case_labels. simpl.
  repeat (constructor; [simpl; intuition discriminate |]). constructor.
Qed.

(** C1 does not hold of the code.  With the codes of [cynara-error.h]
    ([CYNARA_API_ACCESS_DENIED] is 1), [responseCallback] invoked with
    cause CANCEL or FINISH on a pending check passes that [int] to
    [std::promise<bool>::set_value]: the result slot is resolved, once and
    with a value, but the value is [true] (allowed), not [false]
    (denied). *)
Theorem responseCallback_cancel_finish_resolve_to_true checkId response :
  responseCallback checkId CYNARA_CALL_CAUSE_CANCEL response Unresolved
  = (Ret tt, Value true)
  /\ responseCallback checkId CYNARA_CALL_CAUSE_FINISH response Unresolved
     = (Ret tt, Value true).
Proof. split; reflexivity. Qed.

(** So a [check] that misses the cache and whose request is cancelled
    returns [true]. *)
Lemma check_cancelled_request_returns_true :
  fst (check (fun _ c =>
                match c with
                | cynara_async_check_cache _ _ _ _ =>
                    mkClientReply (-1) 0%Z
                | _ => mkClientReply 0 7%Z
                end)
             (fun _ => Some (CYNARA_CALL_CAUSE_CANCEL, 0%Z))
             "app" "privilege" "5001" "session" [])
  = Some (Ret true).
Proof. reflexivity. Qed.

Lemma check_cache_hit_makes_no_request_witness :
  let cynara_async := fun (_ : list ClientCall) (_ : ClientCall) =>
                        mkClientReply 1 0%Z in
  let lookup := cynara_async_check_cache "app" "session" "5001" "privilege" in
  check cynara_async (fun _ => None) "app" "privilege" "5001" "session" []
  = (Some (Ret false), [lookup]).
Proof.
  pose proof
    (@check_cache_hit_makes_no_request libcynara_error_h
       (fun _ _ => mkClientReply 1 0%Z) (fun _ => None)
       "app"%string "privilege"%string "5001"%string "session"%string []
       libcynara_case_labels_distinct)
    as Hthm.
  cbv zeta in *. destruct Hthm as [Hhit _].
  destruct Hhit as [Hrun [_ [Hdenied _]]]; [discriminate |].
  rewrite Hrun. rewrite (Hdenied eq_refl). reflexivity.
Defined.

End CynaraFacts.

(** ** More of [PrivilegeDb] *)

Module PrivilegeDbCoverage.

Import DB PrivilegeDb.

Section AnyStore.

Variable database : Type.
Variable exec :
  QueryType -> bindings -> database ->
  outcome SqlException (list row) * database.

(** X1: whenever [RemoveApplication] ends in an exception -- from the
    delete statement or from the existence check after it -- the caller's
    [pkgIdIsNoMore] holds what it held before the call. *)
Theorem RemoveApplication_flag_kept_on_failure
    appId pkgId pkgIdIsNoMore db e :
  fst (RemoveApplication exec appId pkgId (pkgIdIsNoMore, db)) = Throw e ->
  fst (snd (RemoveApplication exec appId pkgId (pkgIdIsNoMore, db)))
  = pkgIdIsNoMore.
Proof.
  unfold RemoveApplication, try_catch, bind, with_ref, assign, step, Step.
  simpl.
  destruct (exec _ _ db) as [[rows | x] db1]; simpl.
  - destruct (deliver _ rows) as [more command]. simpl.
    destruct (PkgIdExists exec pkgId db1) as [[found | x] db2]; simpl.
    + discriminate.
    + destruct x as [k | x]; [| destruct x]; reflexivity.
  - destruct x; reflexivity.
Qed.

Lemma translated_plain {A} (r : outcome exn A) : translated r -> plain r.
Proof.
  intros Hr e He. destruct (Hr e He) as [-> | ->]; split; discriminate.
Qed.

Lemma try_catch_translated {S T} (func : M S exn T) s :
  plain (fst (func s)) -> translated (fst (try_catch func s)).
Proof.
  unfold try_catch, plain, translated.
  destruct (func s) as [[v | [k | x]] s']; simpl; intros Hplain e He.
  - discriminate.
  - inversion He; subst. destruct (Hplain _ eq_refl) as [Hio Hconflict].
    destruct k; [left; reflexivity | contradiction | contradiction].
  - destruct x; inversion He; subst; auto.
Qed.

Lemma bind_plain {S A B} (m : M S exn A) (k : A -> M S exn B) s :
  plain (fst (m s)) -> (forall a s', plain (fst (k a s'))) ->
  plain (fst (bind m k s)).
Proof.
  unfold bind. intros Hm Hk. destruct (m s) as [[a | e] s']; simpl in *.
  - apply Hk.
  - intros x Hx. inversion Hx; subst. apply (Hm _ eq_refl).
Qed.

Lemma ret_plain {S A} (a : A) (s : S) : plain (fst (@ret S exn A a s)).
Proof. intros e He. discriminate. Qed.

Lemma step_plain c db : plain (fst (step exec c db)).
Proof.
  unfold step. destruct (Step exec c db) as [[v | x] db']; simpl;
    intros e He; inversion He; subst; split; discriminate.
Qed.

Lemma with_ref_plain {A} (m : M database exn A) st :
  plain (fst (m (snd st))) -> plain (fst (with_ref m st)).
Proof.
  unfold with_ref. destruct (m (snd st)) as [r db']. simpl. auto.
Qed.

Lemma PkgIdExists_translated pkgId db :
  translated (fst (PkgIdExists exec pkgId db)).
Proof.
  unfold PkgIdExists. apply try_catch_translated.
  apply bind_plain; [apply step_plain |].
  intros [found command] db'.
  destruct found; first [apply ret_plain | intros e He; discriminate].
Qed.

Lemma RemoveAppPrivileges_translated appId db :
  translated (fst (RemoveAppPrivileges exec appId db)).
Proof.
  unfold RemoveAppPrivileges. apply try_catch_translated.
  apply bind_plain; [apply step_plain |].
  intros [more command] db'.
  first [apply ret_plain | intros e He; discriminate].
Qed.

Lemma UpdateAppPrivileges_loop_plain privileges :
  forall command db,
    plain (fst (UpdateAppPrivileges_loop exec command privileges db)).
Proof.
  induction privileges as [| p rest IH]; intros command db; simpl.
  - first [apply ret_plain | intros e He; discriminate].
  - apply bind_plain; [apply step_plain |].
    intros [more command'] db'. apply IH.
Qed.

Lemma GetPkgPrivileges_loop_plain fuel :
  forall command st r st',
    GetPkgPrivileges_loop exec fuel command st = Some (r, st') -> plain r.
Proof.
  induction fuel as [| fuel IH]; intros command st r st'; simpl;
    [discriminate |].
  unfold with_vector.
  pose proof (step_plain command (snd st)) as Hstep.
  destruct (step exec command (snd st)) as [[[more command'] | x] db'];
    simpl in *.
  - destruct more.
    + apply IH.
    + intros Heq. inversion Heq; subst. intros e He. discriminate.
  - intros Heq. inversion Heq; subst.
    intros e He. inversion He; subst. apply (Hstep e eq_refl).
Qed.

(** X2: none of the six methods of [PrivilegeDb] that run a statement
    ([PkgIdExists], [AddApplication], [RemoveApplication],
    [RemoveAppPrivileges], [UpdateAppPrivileges], [GetPkgPrivileges]) lets
    a [SyntaxError] or [InternalError] of the SQL connection reach its
    caller, nor throws an exception of [PrivilegeDb] other than
    [InternalError]: whatever the store does, a call that ends in an
    exception ends in [PrivilegeDb::Exception::InternalError] or in an
    exception of the connection that [try_catch] does not name. *)
Theorem methods_throw_translated :
  (forall pkgId db, translated (fst (PkgIdExists exec pkgId db)))
  /\ (forall appId pkgId st,
        translated (fst (AddApplication exec appId pkgId st)))
  /\ (forall appId pkgId st,
        translated (fst (RemoveApplication exec appId pkgId st)))
  /\ (forall appId db, translated (fst (RemoveAppPrivileges exec appId db)))
  /\ (forall appId privileges db,
        translated (fst (UpdateAppPrivileges exec appId privileges db)))
  /\ (forall fuel pkgId st r st',
        GetPkgPrivileges exec fuel pkgId st = Some (r, st') -> translated r).
Proof.
  split; [exact PkgIdExists_translated |].
  split; [| split; [| split; [exact RemoveAppPrivileges_translated |]]].
  - intros appId pkgId st. unfold AddApplication.
    unfold bind at 1.
    pose proof (with_ref_plain (PkgIdExists exec pkgId) st
                  (translated_plain _ (PkgIdExists_translated pkgId (snd st))))
      as Hcheck.
    pose proof (PkgIdExists_translated pkgId (snd st)) as Htr.
    unfold with_ref in *.
    destruct (PkgIdExists exec pkgId (snd st)) as [[found | e] db1];
      simpl in *.
    + unfold bind at 1. unfold assign. cbv beta iota.
      apply try_catch_translated.
      apply bind_plain.
      * apply (with_ref_plain (step exec _)). apply step_plain.
      * intros [more command] st'.
        first [apply ret_plain | intros e He; discriminate].
    + intros x Hx. inversion Hx; subst. apply (Htr x eq_refl).
  - intros appId pkgId st. unfold RemoveApplication.
    apply try_catch_translated.
    apply bind_plain.
    + apply (with_ref_plain (step exec _)). apply step_plain.
    + intros [more command] st'.
      apply bind_plain.
      * apply with_ref_plain, translated_plain, PkgIdExists_translated.
      * intros found st''. unfold assign. intros e He. discriminate.
  - split.
    + intros appId privileges db. unfold UpdateAppPrivileges.
      apply try_catch_translated.
      apply bind_plain.
      * apply translated_plain, RemoveAppPrivileges_translated.
      * intros [] db'. apply UpdateAppPrivileges_loop_plain.
    + intros fuel pkgId st r st'. unfold GetPkgPrivileges, try_catch_bounded.
      destruct (GetPkgPrivileges_loop _ _ _ st) as [[r0 st0] |] eqn:Hloop;
        [| discriminate].
      intros Heq. inversion Heq as [Hrun]. clear Heq.
      change r with (fst (r, st')). rewrite <- Hrun.
      apply (try_catch_translated (fun _ => (r0, st0)) st).
      simpl. exact (GetPkgPrivileges_loop_plain _ _ _ _ _ Hloop).
Qed.

(** *** [GetPkgPrivileges] *)

Lemma GetPkgPrivileges_loop_pending rows :
  forall fuel command currentPrivileges db,
    cmd_pending command = Some rows ->
    List.length rows < fuel ->
    GetPkgPrivileges_loop exec fuel command (currentPrivileges, db)
    = Some (Ret tt, (currentPrivileges ++ map first_column rows, db)).
Proof.
  induction rows as [| r rest IH];
    intros fuel command currentPrivileges db Hpending Hfuel;
    (destruct fuel as [| fuel]; [inversion Hfuel |]);
    simpl; unfold with_vector, step, Step; simpl; rewrite Hpending; simpl.
  - rewrite app_nil_r. reflexivity.
  - rewrite (IH fuel _ (currentPrivileges ++ [first_column r]) db).
    + rewrite <- app_assoc. reflexivity.
    + reflexivity.
    + simpl in Hfuel. apply PeanoNat.lt_S_n, Hfuel.
Qed.

(** X3: when the statement of [GetPkgPrivileges], with [pkgId] bound as a
    C string, runs to its end without an exception, the call returns
    normally, given fuel for one step more than there are rows, with the
    first column of every row appended in order to what the caller's
    vector held, and the store as the statement left it. *)
Theorem GetPkgPrivileges_appends_rows
    fuel pkgId currentPrivileges db rows db' :
  exec EGetPkgPrivileges [(1, c_str pkgId)] db = (Ret rows, db') ->
  List.length rows < fuel ->
  GetPkgPrivileges exec fuel pkgId (currentPrivileges, db)
  = Some (Ret tt, (currentPrivileges ++ map first_column rows, db')).
Proof.
  intros Hrun Hfuel.
  unfold GetPkgPrivileges, try_catch_bounded.
  destruct fuel as [| fuel]; [inversion Hfuel |].
  simpl. unfold with_vector, step, Step. simpl. rewrite Hrun. simpl.
  destruct rows as [| r rest]; simpl; [rewrite app_nil_r; reflexivity |].
  rewrite (GetPkgPrivileges_loop_pending rest fuel _
             (currentPrivileges ++ [first_column r]) db').
  - rewrite <- app_assoc. reflexivity.
  - reflexivity.
  - simpl in Hfuel. apply PeanoNat.lt_S_n, Hfuel.
Qed.

(** *** [UpdateAppPrivileges] *)

Lemma insert_command_start appId :
  insert_command appId
    (BindString (PrepareDataCommand EAddAppPrivileges) 1 appId).
Proof. repeat split. Qed.

Lemma insert_command_bound appId c privilege :
  insert_command appId c ->
  cmd_query (BindString c 2 privilege) = EAddAppPrivileges
  /\ cmd_pending (BindString c 2 privilege) = None
  /\ cmd_binds (BindString c 2 privilege) = [(1, appId); (2, privilege)].
Proof.
  intros [Hquery [Hpending Hbinds]]. unfold BindString. simpl.
  rewrite Hbinds. auto.
Qed.

Lemma insert_command_next appId c privilege rows :
  insert_command appId c ->
  insert_command appId
    (Reset (snd (deliver (BindString c 2 privilege) rows))).
Proof.
  intros [Hquery [Hpending Hbinds]].
  destruct rows; unfold insert_command; simpl;
    (split; [exact Hquery | split; [reflexivity |]]);
    rewrite Hbinds; reflexivity.
Qed.

(** One turn of the loop runs the insert for the privilege at hand. *)
Lemma UpdateAppPrivileges_loop_turn appId c privilege rest db :
  insert_command appId c ->
  exists c',
    insert_command appId c'
    /\ UpdateAppPrivileges_loop exec c (privilege :: rest) db
       = match exec EAddAppPrivileges [(1, appId); (2, c_str privilege)] db
         with
         | (Ret _, db') => UpdateAppPrivileges_loop exec c' rest db'
         | (Throw e, db') => (Throw (SqlExn e), db')
         end.
Proof.
  intros Hc.
  destruct (insert_command_bound appId c (c_str privilege) Hc)
    as [Hquery [Hpending Hbinds]].
  destruct (exec EAddAppPrivileges [(1, appId); (2, c_str privilege)] db)
    as [[rows | e] db'] eqn:Hrun.
  - exists (Reset (snd (deliver (BindString c 2 (c_str privilege)) rows))).
    split; [apply insert_command_next, Hc |].
    simpl. unfold bind, step, Step.
    rewrite Hpending, Hquery, Hbinds, Hrun.
    destruct (deliver _ rows); reflexivity.
  - exists c. split; [exact Hc |].
    simpl. unfold bind, step, Step.
    rewrite Hpending, Hquery, Hbinds, Hrun. reflexivity.
Qed.

Lemma UpdateAppPrivileges_loop_adds appId
    (add : string -> string -> database -> database) privileges :
  (forall p db,
      exists rows,
        exec EAddAppPrivileges [(1, appId); (2, p)] db
        = (Ret rows, add appId p db)) ->
  forall c db,
    insert_command appId c ->
    UpdateAppPrivileges_loop exec c privileges db
    = (Ret tt, fold_left (fun d p => add appId (c_str p) d) privileges db).
Proof.
  intros Hadd.
  induction privileges as [| p rest IH]; intros c db Hc; [reflexivity |].
  destruct (UpdateAppPrivileges_loop_turn appId c p rest db Hc)
    as [c' [Hc' Hturn]].
  rewrite Hturn. destruct (Hadd (c_str p) db) as [rows Hrun].
  rewrite Hrun. simpl. apply IH, Hc'.
Qed.

Lemma UpdateAppPrivileges_loop_same appId privileges :
  forall c1 c2 db,
    insert_command appId c1 -> insert_command appId c2 ->
    UpdateAppPrivileges_loop exec c1 privileges db
    = UpdateAppPrivileges_loop exec c2 privileges db.
Proof.
  induction privileges as [| p rest IH]; intros c1 c2 db H1 H2;
    [reflexivity |].
  destruct (UpdateAppPrivileges_loop_turn appId c1 p rest db H1)
    as [c1' [H1' Hturn1]].
  destruct (UpdateAppPrivileges_loop_turn appId c2 p rest db H2)
    as [c2' [H2' Hturn2]].
  rewrite Hturn1, Hturn2.
  destruct (exec _ _ db) as [[rows | e] db']; [apply IH; assumption |].
  reflexivity.
Qed.

Lemma UpdateAppPrivileges_loop_failing appId before privilege after e :
  forall c db db1 db2,
    insert_command appId c ->
    UpdateAppPrivileges_loop exec c before db = (Ret tt, db1) ->
    exec EAddAppPrivileges [(1, appId); (2, c_str privilege)] db1
    = (Throw e, db2) ->
    UpdateAppPrivileges_loop exec c (before ++ privilege :: after) db
    = (Throw (SqlExn e), db2).
Proof.
  induction before as [| p rest IH]; intros c db db1 db2 Hc Hbefore Hfail.
  - simpl in Hbefore. inversion Hbefore; subst. simpl app.
    destruct (UpdateAppPrivileges_loop_turn appId c privilege after db1 Hc)
      as [c' [_ Hturn]].
    rewrite Hturn, Hfail. reflexivity.
  - simpl app.
    destruct (UpdateAppPrivileges_loop_turn appId c p rest db Hc)
      as [c' [Hc' Hturn]].
    destruct (UpdateAppPrivileges_loop_turn appId c p
                (rest ++ privilege :: after) db Hc)
      as [c'' [Hc'' Hturn']].
    rewrite Hturn in Hbefore. rewrite Hturn'.
    destruct (exec _ _ db) as [[rows | x] db']; [| discriminate].
    rewrite (UpdateAppPrivileges_loop_same appId _ c'' c' db' Hc'' Hc').
    apply (IH c' db' db1 db2 Hc' Hbefore Hfail).
Qed.

(** X4: [UpdateAppPrivileges] begins with [RemoveAppPrivileges]: with no
    privilege to insert it does to the store and returns or throws what
    [RemoveAppPrivileges] does, and when [RemoveAppPrivileges] throws, it
    throws the same and leaves the store the same whatever privileges
    were to be inserted. *)
Theorem UpdateAppPrivileges_begins_with_removal appId db :
  UpdateAppPrivileges exec appId [] db = RemoveAppPrivileges exec appId db
  /\ (forall privileges failure db',
        RemoveAppPrivileges exec appId db = (Throw failure, db') ->
        UpdateAppPrivileges exec appId privileges db = (Throw failure, db')).
Proof.
  pose proof (RemoveAppPrivileges_translated appId db) as Htranslated.
  split.
  - unfold UpdateAppPrivileges, try_catch, bind.
    destruct (RemoveAppPrivileges exec appId db) as [[[] | e] db'];
      simpl in *; [reflexivity |].
    destruct (Htranslated e eq_refl) as [-> | ->]; reflexivity.
  - intros privileges failure db' Hremove.
    unfold UpdateAppPrivileges, try_catch, bind. rewrite Hremove in *.
    simpl in *.
    destruct (Htranslated failure eq_refl) as [-> | ->]; reflexivity.
Qed.

(** X5: over a store whose removal and insert statements return normally,
    [UpdateAppPrivileges] returns normally and leaves the store that the
    removal of the application's grants followed by the insert of each
    privilege, in the order given, leaves. *)
Theorem UpdateAppPrivileges_removes_then_inserts
    (remove : string -> database -> database)
    (add : string -> string -> database -> database)
    appId privileges db :
  (forall a d,
      exists rows,
        exec ERemoveAppPrivileges [(1, a)] d = (Ret rows, remove a d)) ->
  (forall a p d,
      exists rows,
        exec EAddAppPrivileges [(1, a); (2, p)] d = (Ret rows, add a p d)) ->
  UpdateAppPrivileges exec appId privileges db
  = (Ret tt,
     fold_left (fun d p => add (c_str appId) (c_str p) d) privileges
       (remove (c_str appId) db)).
Proof.
  intros Hremove Hadd.
  unfold UpdateAppPrivileges, try_catch, bind.
  rewrite (PrivilegeDbFacts.RemoveAppPrivileges_one_statement database exec).
  destruct (Hremove (c_str appId) db) as [rows Hrun]. rewrite Hrun.
  rewrite (UpdateAppPrivileges_loop_adds (c_str appId) add privileges
             (Hadd (c_str appId)) _ _ (insert_command_start (c_str appId))).
  reflexivity.
Qed.

(** X6: [UpdateAppPrivileges] undoes nothing by itself.  If the call for
    the privileges [before] returns normally leaving the store [db1], and
    the insert of the next privilege throws on [db1] leaving [db2], then
    the call for [before], that privilege and any privileges [after]
    ends in the exception [try_catch] makes of the insert's and leaves
    [db2]: the removal and the inserts made stay, and the privileges
    [after] are not tried. *)
Theorem UpdateAppPrivileges_failed_insert_keeps_earlier
    appId before privilege after db db1 e db2 :
  UpdateAppPrivileges exec appId before db = (Ret tt, db1) ->
  exec EAddAppPrivileges [(1, c_str appId); (2, c_str privilege)] db1
  = (Throw e, db2) ->
  UpdateAppPrivileges exec appId (before ++ privilege :: after) db
  = (Throw (rethrown e), db2).
Proof.
  intros Hbefore Hfail.
  unfold UpdateAppPrivileges, try_catch, bind in *.
  destruct (RemoveAppPrivileges exec appId db) as [[[] | x] db0].
  - destruct (UpdateAppPrivileges_loop exec _ before db0)
      as [[[] | x] db1'] eqn:Hloop.
    + inversion Hbefore; subst.
      rewrite (UpdateAppPrivileges_loop_failing (c_str appId) before
                 privilege after e _ db0 db1 db2
                 (insert_command_start (c_str appId)) Hloop Hfail).
      destruct e; reflexivity.
    + destruct x as [k | x]; [| destruct x]; discriminate.
  - destruct x as [k | x]; [| destruct x]; discriminate.
Qed.

End AnyStore.

Lemma RemoveApplication_flag_kept_on_failure_witness :
  fst (snd (RemoveApplication
              (fun (q : QueryType) (b : bindings) (st : store) =>
                 (@Throw SqlException (list row) DB.SyntaxError, st))
              "app1" "pkgA" (true, empty_store)))
  = true.
Proof.
  apply (RemoveApplication_flag_kept_on_failure store
           (fun _ _ st => (Throw DB.SyntaxError, st))
           "app1"%string "pkgA"%string true empty_store
           (DbExn InternalError)).
  reflexivity.
Defined.

Lemma GetPkgPrivileges_appends_rows_witness :
  GetPkgPrivileges (exec_spec DB.InternalError) 3 "pkgA"
    (["old"%string],
     mkStore [("app1"%string, "pkgA"%string)]
             [("app1"%string, "camera"%string);
              ("app1"%string, "location"%string)])
  = Some (Ret tt,
          (["old"; "camera"; "location"]%string,
           mkStore [("app1"%string, "pkgA"%string)]
                   [("app1"%string, "camera"%string);
                    ("app1"%string, "location"%string)])).
Proof.
  apply (GetPkgPrivileges_appends_rows store (exec_spec DB.InternalError)
           3 "pkgA"%string ["old"%string]
           (mkStore [("app1"%string, "pkgA"%string)]
                    [("app1"%string, "camera"%string);
                     ("app1"%string, "location"%string)])
           [["camera"%string]; ["location"%string]]);
    [reflexivity | repeat constructor].
Defined.

Lemma UpdateAppPrivileges_begins_with_removal_witness :
  let exec := fun (q : QueryType) (b : bindings) (st : store) =>
                (@Throw SqlException (list row) DB.SyntaxError, st) in
  UpdateAppPrivileges exec "app1" ["camera"%string] empty_store
  = (Throw (DbExn InternalError), empty_store).
Proof.
  destruct (UpdateAppPrivileges_begins_with_removal store
              (fun _ _ st => (Throw DB.SyntaxError, st)) "app1"%string
              empty_store) as [_ Hthrows].
  apply Hthrows. reflexivity.
Defined.

Lemma UpdateAppPrivileges_removes_then_inserts_witness :
  UpdateAppPrivileges (exec_spec DB.InternalError) "app1"
    ["camera"; "location"]%string
    (mkStore [] [("app1"%string, "contacts"%string)])
  = (Ret tt,
     mkStore [] [("app1"%string, "camera"%string);
                 ("app1"%string, "location"%string)]).
Proof.
  apply (UpdateAppPrivileges_removes_then_inserts store
           (exec_spec DB.InternalError) without_grants with_grant
           "app1"%string ["camera"; "location"]%string
           (mkStore [] [("app1"%string, "contacts"%string)])).
  - intros a d. exists []. reflexivity.
  - intros a p d. exists []. reflexivity.
Defined.

(** A store that takes one grant per application and reports a second one
    as a violated constraint. *)
Lemma UpdateAppPrivileges_failed_insert_keeps_earlier_witness :
  let exec := fun (q : QueryType) (b : bindings) (st : store) =>
                match q, grants st with
                | EAddAppPrivileges, _ :: _ =>
                    (@Throw SqlException (list row) DB.InternalError, st)
                | _, _ => exec_spec DB.InternalError q b st
                end in
  UpdateAppPrivileges exec "app1"
    (["camera"%string] ++ "location"%string :: ["contacts"%string])
    (mkStore [] [("app1"%string, "old"%string)])
  = (Throw (rethrown DB.InternalError),
     mkStore [] [("app1"%string, "camera"%string)]).
Proof.
  apply (UpdateAppPrivileges_failed_insert_keeps_earlier store
           (fun q b st =>
              match q, grants st with
              | EAddAppPrivileges, _ :: _ => (Throw DB.InternalError, st)
              | _, _ => exec_spec DB.InternalError q b st
              end)
           "app1"%string ["camera"%string] "location"%string
           ["contacts"%string]
           (mkStore [] [("app1"%string, "old"%string)])
           (mkStore [] [("app1"%string, "camera"%string)])
           DB.InternalError
           (mkStore [] [("app1"%string, "camera"%string)]));
    reflexivity.
Defined.

End PrivilegeDbCoverage.

(** ** [std::map] *)

Module StdMapFacts.

Section Map.

Variables (K V : Type).
Variable compare : K -> K -> comparison.
Hypothesis compare_eq : forall a b, compare a b = Eq <-> a = b.

(** What [m[k] = v] does to a later [m.at]. *)
Lemma at_set_same k v (m : StdMap.t K V) :
  StdMap.at_ compare k (StdMap.set compare k v m) = Some v.
Proof.
  assert (Hkk : compare k k = Eq) by (apply compare_eq; reflexivity).
  induction m as [| [k' v'] rest IH]; simpl.
  - rewrite Hkk. reflexivity.
  - destruct (compare k k') eqn:Hcmp; simpl.
    + rewrite Hkk. reflexivity.
    + rewrite Hkk. reflexivity.
    + rewrite Hcmp. exact IH.
Qed.

Lemma at_set_other k k' v (m : StdMap.t K V) :
  k <> k' ->
  StdMap.at_ compare k' (StdMap.set compare k v m)
  = StdMap.at_ compare k' m.
Proof.
  intros Hneq.
  assert (Hk'k : compare k' k <> Eq).
  { intros Heq. apply compare_eq in Heq. congruence. }
  induction m as [| [k2 v2] rest IH]; simpl.
  - destruct (compare k' k); [contradiction | reflexivity | reflexivity].
  - destruct (compare k k2) eqn:Hcmp; simpl.
    + apply compare_eq in Hcmp. subst k2.
      destruct (compare k' k); [contradiction | reflexivity | reflexivity].
    + destruct (compare k' k); [contradiction | reflexivity | reflexivity].
    + destruct (compare k' k2); [reflexivity | exact IH | exact IH].
Qed.

(** After a run of assignments, a key holds what the last assignment to
    it stored, and what it held before if none was made to it. *)
Lemma at_assignments k entries :
  forall m : StdMap.t K V,
    StdMap.at_ compare k
      (fold_left (fun m e => StdMap.set compare (fst e) (snd e) m)
         entries m)
    = match find (fun e => match compare (fst e) k with
                           | Eq => true
                           | _ => false
                           end) (rev entries) with
      | Some e => Some (snd e)
      | None => StdMap.at_ compare k m
      end.
Proof.
  induction entries as [| e entries IH] using rev_ind; intros m.
  - reflexivity.
  - rewrite fold_left_app, rev_app_distr. simpl.
    destruct (compare (fst e) k) eqn:Hcmp.
    + apply compare_eq in Hcmp. subst k. apply at_set_same.
    + rewrite at_set_other; [apply IH |].
      intros Heq. subst k.
      rewrite (proj2 (compare_eq (fst e) (fst e)) eq_refl) in Hcmp.
      discriminate.
    + rewrite at_set_other; [apply IH |].
      intros Heq. subst k.
      rewrite (proj2 (compare_eq (fst e) (fst e)) eq_refl) in Hcmp.
      discriminate.
Qed.

End Map.

(** An assignment keeps the keys of a map over [int] in ascending
    order. *)
Lemma set_HdRel {V} (k0 k : Z) (v : V) (m : StdMap.t Z V) :
  (k0 < k)%Z -> HdRel Z.lt k0 (map fst m) ->
  HdRel Z.lt k0 (map fst (StdMap.set Z.compare k v m)).
Proof.
  intros Hlt Hhd. destruct m as [| [k' v'] rest]; simpl.
  - constructor. exact Hlt.
  - destruct (Z.compare k k'); simpl; constructor;
      try exact Hlt.
    inversion Hhd; assumption.
Qed.

Lemma set_Sorted {V} (k : Z) (v : V) (m : StdMap.t Z V) :
  Sorted Z.lt (map fst m) ->
  Sorted Z.lt (map fst (StdMap.set Z.compare k v m)).
Proof.
  induction m as [| [k' v'] rest IH]; intros Hsorted; simpl.
  - repeat constructor.
  - inversion Hsorted as [| ? ? Hrest Hhd]; subst.
    destruct (Z.compare k k') eqn:Hcmp; simpl.
    + apply Z.compare_eq_iff in Hcmp. subst k'.
      constructor; assumption.
    + constructor; [exact Hsorted |].
      constructor. apply Z.compare_lt_iff. exact Hcmp.
    + constructor; [apply IH, Hrest |].
      apply set_HdRel; [| exact Hhd].
      apply Z.compare_gt_iff. exact Hcmp.
Qed.

Lemma assignments_Sorted {V} (entries : list (Z * V)) :
  forall m : StdMap.t Z V,
    Sorted Z.lt (map fst m) ->
    Sorted Z.lt
      (map fst
         (fold_left (fun m e => StdMap.set Z.compare (fst e) (snd e) m)
            entries m)).
Proof.
  induction entries as [| e entries IH]; intros m Hsorted; simpl.
  - exact Hsorted.
  - apply IH, set_Sorted, Hsorted.
Qed.

Lemma Sorted_lt_NoDup (keys : list Z) : Sorted Z.lt keys -> NoDup keys.
Proof.
  intros Hsorted. apply Sorted_StronglySorted in Hsorted;
    [| intros a b c; apply Z.lt_trans].
  induction Hsorted as [| k keys Hrest IH Hall]; constructor;
    [| exact IH].
  intros Hin. rewrite Forall_forall in Hall.
  apply (Z.lt_irrefl k), Hall, Hin.
Qed.

(** In a map with ascending keys, the entries are what [at] finds. *)
Lemma at_In_Sorted {V} (m : StdMap.t Z V) k v :
  Sorted Z.lt (map fst m) ->
  (In (k, v) m <-> StdMap.at_ Z.compare k m = Some v).
Proof.
  intros Hsorted. apply Sorted_StronglySorted in Hsorted;
    [| intros a b c; apply Z.lt_trans].
  induction m as [| [k' v'] rest IH]; simpl.
  - split; [contradiction | discriminate].
  - simpl in Hsorted.
    apply StronglySorted_inv in Hsorted. destruct Hsorted as [Hrest Hall].
    specialize (IH Hrest).
    destruct (Z.compare k k') eqn:Hcmp.
    + apply Z.compare_eq_iff in Hcmp. subst k'. split.
      * intros [Heq | Hin]; [congruence |].
        exfalso. rewrite Forall_forall in Hall.
        assert (Hlt : (k < k)%Z).
        { apply Hall. change k with (fst (k, v)). apply in_map, Hin. }
        revert Hlt. apply Z.lt_irrefl.
      * intros Heq. left. congruence.
    + split.
      * intros [Heq | Hin]; [| apply IH, Hin].
        inversion Heq; subst. rewrite Z.compare_refl in Hcmp. discriminate.
      * intros Hat. right. apply IH, Hat.
    + split.
      * intros [Heq | Hin]; [| apply IH, Hin].
        inversion Heq; subst. rewrite Z.compare_refl in Hcmp. discriminate.
      * intros Hat. right. apply IH, Hat.
Qed.

End StdMapFacts.

(** ** More of [CynaraAdmin] *)

Module CynaraAdminCoverage.

Import CynaraAdmin StringFacts.

Section Admin.

Context `{cynara_error_h} `{cynara_admin_types_h}.
Variable cynara_admin : list AdminCall -> AdminCall -> AdminReply.

(** *** [UpdateAppPolicy] on any two sequences *)

Lemma sort_merge_join_same label user privileges :
  forall policies,
    sort_merge_join label user privileges privileges policies
    = (policies, [], []).
Proof.
  induction privileges as [| p rest IH]; intros policies; simpl.
  - reflexivity.
  - rewrite compare_refl. apply IH.
Qed.

(** X7: called with the same sequence of privileges as old and as new,
    sorted or not, [UpdateAppPolicy] returns normally and makes no call on
    Cynara. *)
Theorem UpdateAppPolicy_same_privileges_no_call label user privileges h :
  UpdateAppPolicy cynara_admin label user privileges privileges h
  = (Ret tt, h).
Proof.
  unfold UpdateAppPolicy.
  rewrite CynaraAdminFacts.UpdateAppPolicy_policies_unfold,
    sort_merge_join_same.
  reflexivity.
Qed.

Lemma sort_merge_join_nil_l label user newP policies :
  sort_merge_join label user [] newP policies = (policies, [], newP).
Proof. destruct newP; reflexivity. Qed.

Lemma sort_merge_join_nil_r label user oldP policies :
  sort_merge_join label user oldP [] policies = (policies, oldP, []).
Proof. destruct oldP; reflexivity. Qed.

(** X8: with no old privilege the batch handed to [SetPolicies] is one
    Allow rule per new privilege, in the order given; with no new
    privilege it is one Delete rule per old privilege, in the order
    given.  Neither needs the sequence to be sorted. *)
Theorem UpdateAppPolicy_one_side_empty label user privileges h :
  UpdateAppPolicy cynara_admin label user [] privileges h
  = SetPolicies cynara_admin (map (Allow_rule label user) privileges) h
  /\ UpdateAppPolicy cynara_admin label user privileges [] h
     = SetPolicies cynara_admin (map (Delete_rule label user) privileges) h.
Proof.
  unfold UpdateAppPolicy.
  rewrite !CynaraAdminFacts.UpdateAppPolicy_policies_unfold,
    sort_merge_join_nil_l, sort_merge_join_nil_r.
  simpl. rewrite app_nil_r. split; reflexivity.
Qed.

(** Where a rule of the batch comes from. *)
Lemma sort_merge_join_origin label user allOld allNew
    (origin := fun r =>
       (exists p, In p allOld /\ r = Delete_rule label user p)
       \/ (exists p, In p allNew /\ r = Allow_rule label user p))
    oldP :
  forall newP acc,
    incl oldP allOld -> incl newP allNew -> Forall origin acc ->
    Forall origin (fst (fst (sort_merge_join label user oldP newP acc)))
    /\ incl (snd (fst (sort_merge_join label user oldP newP acc))) allOld
    /\ incl (snd (sort_merge_join label user oldP newP acc)) allNew.
Proof.
  induction oldP as [| o oldRest IHold]; intros newP acc Hold Hnew Hacc.
  - rewrite sort_merge_join_nil_l. simpl. repeat split; assumption.
  - revert acc Hacc.
    induction newP as [| n newRest IHnew]; intros acc Hacc.
    + simpl. repeat split; assumption.
    + simpl. destruct (String.compare o n) eqn:Hcmp.
      * apply IHold; [| | exact Hacc].
        -- intros x Hx. apply Hold. right. exact Hx.
        -- intros x Hx. apply Hnew. right. exact Hx.
      * apply IHold; [| exact Hnew |].
        -- intros x Hx. apply Hold. right. exact Hx.
        -- apply Forall_app. split; [exact Hacc |].
           constructor; [| constructor].
           left. exists o. split; [apply Hold; left |]; reflexivity.
      * apply IHnew.
        -- intros x Hx. apply Hnew. right. exact Hx.
        -- apply Forall_app. split; [exact Hacc |].
           constructor; [| constructor].
           right. exists n. split; [apply Hnew; left |]; reflexivity.
Qed.

(** What becomes of each privilege the loop passes. *)
Lemma sort_merge_join_passes label user oldP :
  forall newP acc,
    incl acc (fst (fst (sort_merge_join label user oldP newP acc)))
    /\ (forall p, In p oldP ->
          In (Delete_rule label user p)
             (fst (fst (sort_merge_join label user oldP newP acc)))
          \/ In p (snd (fst (sort_merge_join label user oldP newP acc)))
          \/ In p newP)
    /\ (forall p, In p newP ->
          In (Allow_rule label user p)
             (fst (fst (sort_merge_join label user oldP newP acc)))
          \/ In p (snd (sort_merge_join label user oldP newP acc))
          \/ In p oldP).
Proof.
  induction oldP as [| o oldRest IHold]; intros newP acc.
  - rewrite sort_merge_join_nil_l. simpl.
    repeat split; [apply incl_refl | contradiction | tauto].
  - revert acc.
    induction newP as [| n newRest IHnew]; intros acc.
    + simpl. repeat split; [apply incl_refl | tauto | contradiction].
    + simpl. destruct (String.compare o n) eqn:Hcmp.
      * apply compare_Eq_iff in Hcmp. subst n.
        destruct (IHold newRest acc) as [Hacc [Hdel Hall]].
        split; [exact Hacc |]. split.
        -- intros p [Hp | Hp]; [subst p; right; right; left; reflexivity |].
           destruct (Hdel p Hp) as [Hd | [Hr | Hn]];
             [left; exact Hd | right; left; exact Hr
             | right; right; right; exact Hn].
        -- intros p [Hp | Hp]; [subst p; right; right; left; reflexivity |].
           destruct (Hall p Hp) as [Ha | [Hr | Ho]];
             [left; exact Ha | right; left; exact Hr
             | right; right; right; exact Ho].
      * destruct (IHold (n :: newRest)
                    (acc ++ [CynaraAdminPolicy label user o
                               (Operation_to_int Operation.Delete)
                               (Buckets_at Bucket.MANIFESTS)]))
          as [Hacc [Hdel Hall]].
        split; [| split].
        -- intros x Hx. apply Hacc, in_or_app. left. exact Hx.
        -- intros p [Hp | Hp]; [| apply Hdel, Hp].
           subst p. left. apply Hacc, in_or_app. right. left. reflexivity.
        -- intros p Hp.
           destruct (Hall p Hp) as [Ha | [Hr | Ho]];
             [left; exact Ha | right; left; exact Hr
             | right; right; right; exact Ho].
      * destruct (IHnew
                    (acc ++ [CynaraAdminPolicy label user n
                               (Operation_to_int Operation.Allow)
                               (Buckets_at Bucket.MANIFESTS)]))
          as [Hacc [Hdel Hall]].
        split; [| split].
        -- intros x Hx. apply Hacc, in_or_app. left. exact Hx.
        -- intros p Hp.
           destruct (Hdel p Hp) as [Hd | [Hr | Hn]];
             [left; exact Hd | right; left; exact Hr
             | right; right; right; exact Hn].
        -- intros p [Hp | Hp]; [| apply Hall, Hp].
           subst p. left. apply Hacc, in_or_app. right. left. reflexivity.
Qed.

(** X9: for any two sequences, sorted or not, every rule of the batch
    that [UpdateAppPolicy] builds is a Delete rule for a privilege of the
    old sequence or an Allow rule for a privilege of the new one; every
    old privilege that is not in the new sequence has its Delete rule in
    the batch, and every new privilege that is not in the old sequence has
    its Allow rule. *)
Theorem UpdateAppPolicy_policies_of_any_sequences label user oldP newP :
  (forall r,
      In r (UpdateAppPolicy_policies label user oldP newP) ->
      (exists p, In p oldP /\ r = Delete_rule label user p)
      \/ (exists p, In p newP /\ r = Allow_rule label user p))
  /\ (forall p,
        In p oldP -> ~ In p newP ->
        In (Delete_rule label user p)
           (UpdateAppPolicy_policies label user oldP newP))
  /\ (forall p,
        In p newP -> ~ In p oldP ->
        In (Allow_rule label user p)
           (UpdateAppPolicy_policies label user oldP newP)).
Proof.
  rewrite CynaraAdminFacts.UpdateAppPolicy_policies_unfold.
  pose proof (sort_merge_join_origin label user oldP newP oldP newP []
                (incl_refl _) (incl_refl _) (Forall_nil _)) as Horigin.
  pose proof (sort_merge_join_passes label user oldP newP []) as Hpasses.
  destruct (sort_merge_join label user oldP newP [])
    as [[policies oldRest] newRest].
  simpl in Horigin, Hpasses.
  destruct Horigin as [Hpolicies [HoldRest HnewRest]].
  destruct Hpasses as [_ [Hdel Hall]].
  split; [| split].
  - intros r Hr.
    apply in_app_or in Hr. destruct Hr as [Hr | Hr].
    + rewrite Forall_forall in Hpolicies. apply Hpolicies, Hr.
    + apply in_app_or in Hr. destruct Hr as [Hr | Hr].
      * apply in_map_iff in Hr. destruct Hr as [p [Hp Hin]].
        left. exists p. split; [apply HoldRest, Hin | symmetry; exact Hp].
      * apply in_map_iff in Hr. destruct Hr as [p [Hp Hin]].
        right. exists p. split; [apply HnewRest, Hin | symmetry; exact Hp].
  - intros p Hp Hnot.
    destruct (Hdel p Hp) as [Hd | [Hr | Hn]]; [| | contradiction].
    + apply in_or_app. left. exact Hd.
    + apply in_or_app. right. apply in_or_app. left.
      apply in_map, Hr.
  - intros p Hp Hnot.
    destruct (Hall p Hp) as [Ha | [Hr | Ho]]; [| | contradiction].
    + apply in_or_app. left. exact Ha.
    + apply in_or_app. right. apply in_or_app. right.
      apply in_map, Hr.
Qed.

(** *** [UserRemove] *)

(** X10: [UserRemove] makes exactly one call on Cynara, a recursive
    [cynara_admin_erase] that starts at the default bucket and is
    filtered to any client, any privilege and the user whose token is the
    decimal text of [uid] as a 32-bit unsigned number; it sets no policy,
    and it raises only what [checkCynaraError] makes of the call's return
    code. *)
Theorem UserRemove_one_recursive_erase uid h :
  UserRemove cynara_admin uid h
  = (match checkCynaraError
             (reply_code
                (cynara_admin h
                   (cynara_admin_erase CYNARA_ADMIN_DEFAULT_BUCKET true
                      CYNARA_ADMIN_ANY (to_string (uid mod 2 ^ 32))
                      CYNARA_ADMIN_ANY)))
     with
     | Ret _ => Ret tt
     | Throw e => Throw e
     end,
     h ++ [cynara_admin_erase CYNARA_ADMIN_DEFAULT_BUCKET true
             CYNARA_ADMIN_ANY (to_string (uid mod 2 ^ 32))
             CYNARA_ADMIN_ANY]).
Proof.
  unfold UserRemove, EmptyBucket, bind, call, checkCynaraError_,
    to_unsigned_int.
  simpl Buckets_at.
  rewrite CYNARA_ADMIN_DEFAULT_BUCKET_literal, CYNARA_ADMIN_ANY_literal,
    c_str_to_string.
  destruct (checkCynaraError _); reflexivity.
Qed.

(** *** [ListUsers] after [UserInit] *)

Variable ulong_bits : N.

Lemma all_digits_string_of_uint d :
  all_digits (DecimalString.NilEmpty.string_of_uint d) = true.
Proof. induction d; simpl; try exact IHd; reflexivity. Qed.

Lemma numeric_to_string n : numeric (to_string n) = true.
Proof.
  unfold to_string, DecimalString.NilZero.string_of_uint.
  destruct (N.to_uint n) eqn:Hn;
    try (simpl; apply all_digits_string_of_uint).
  reflexivity.
Qed.

Lemma to_string_not_wildcard n :
  numeric CYNARA_ADMIN_WILDCARD = false ->
  to_string n <> CYNARA_ADMIN_WILDCARD.
Proof.
  intros Hwild Heq. rewrite <- Heq, numeric_to_string in Hwild.
  discriminate.
Qed.

Lemma c_str_Buckets_at b : c_str (Buckets_at b) = Buckets_at b.
Proof.
  destruct b; try reflexivity.
  apply CYNARA_ADMIN_DEFAULT_BUCKET_literal.
Qed.

(** The call that [UserInit] adds to the history. *)
Lemma UserInit_history uid userType h :
  snd (UserInit cynara_admin uid userType h)
  = h ++ match UserInit_bucket userType with
         | Some bucket =>
             [cynara_admin_set_policies
                [UserInit_rule (to_unsigned_int uid) (Buckets_at bucket)]]
         | None => []
         end.
Proof.
  assert (Hrule : forall bucket,
             CynaraAdminPolicy_goToBucket CYNARA_ADMIN_WILDCARD
               (to_string (to_unsigned_int uid)) CYNARA_ADMIN_WILDCARD
               (Buckets_at bucket) (Buckets_at Bucket.MAIN)
             = UserInit_rule (to_unsigned_int uid) (Buckets_at bucket)).
  { intros bucket. unfold CynaraAdminPolicy_goToBucket, UserInit_rule.
    rewrite CYNARA_ADMIN_WILDCARD_literal, c_str_to_string,
      !c_str_Buckets_at.
    reflexivity. }
  unfold UserInit.
  destruct userType; cbn [UserInit_bucket app];
    first [ rewrite Hrule, CynaraAdminFacts.SetPolicies_nonempty;
            reflexivity
          | unfold throw; simpl; rewrite app_nil_r; reflexivity ].
Qed.

Lemma policies_set_app h h' :
  policies_set (h ++ h') = policies_set h ++ policies_set h'.
Proof. apply flat_map_app. Qed.

Lemma policies_set_UserInit_each users :
  forall h,
    policies_set (UserInit_each cynara_admin users h)
    = policies_set h
      ++ flat_map
           (fun u =>
              match UserInit_bucket (snd u) with
              | Some bucket =>
                  [UserInit_rule (to_unsigned_int (fst u))
                     (Buckets_at bucket)]
              | None => []
              end) users.
Proof.
  induction users as [| u users IH]; intros h; simpl.
  - symmetry. apply app_nil_r.
  - unfold UserInit_each in *. simpl.
    rewrite IH, UserInit_history, policies_set_app, <- app_assoc.
    f_equal. f_equal.
    destruct (UserInit_bucket (snd u)); reflexivity.
Qed.

Lemma to_unsigned_int_range n : (to_unsigned_int n < 2 ^ 32)%N.
Proof. unfold to_unsigned_int. apply N.mod_lt. discriminate. Qed.

(** X11: on a [CynaraAdmin] that has so far been used to initialise users,
    over a Cynara that lists the policies it was given, [ListUsers]
    returns normally and appends to the caller's vector the uid, as a
    32-bit unsigned number, of every [UserInit] call whose user type has
    a bucket, in the order of the calls; the calls with another user type
    add nothing.  It needs [unsigned long] to be at least 32 bits wide
    and the wildcard not to be a decimal numeral. *)
Theorem ListUsers_reads_back_UserInit users listOfUsers :
  (32 <= ulong_bits)%N ->
  numeric CYNARA_ADMIN_WILDCARD = false ->
  (exists b,
      checkCynaraError
        (reply_code
           (cynara_admin (UserInit_each cynara_admin users [])
              ListUsers_call))
      = Ret b) ->
  reply_policies
    (cynara_admin (UserInit_each cynara_admin users []) ListUsers_call)
  = policies_set (UserInit_each cynara_admin users []) ->
  ListUsers cynara_admin ulong_bits
    (listOfUsers, UserInit_each cynara_admin users [])
  = (Ret tt,
     (listOfUsers ++ initialised users,
      UserInit_each cynara_admin users [] ++ [ListUsers_call])).
Proof.
  intros Hwide Hwild [b Hcode] Hlisted.
  unfold ListUsers.
  rewrite CynaraAdminFacts.ListUsers_listing, Hcode, Hlisted,
    policies_set_UserInit_each.
  simpl policies_set. simpl app.
  rewrite (CynaraAdminFacts.ListUsers_loop_in_range ulong_bits).
  - f_equal. f_equal. f_equal.
    unfold initialised. clear Hcode Hlisted.
    induction users as [| u users IH]; [reflexivity |].
    simpl. rewrite flat_map_app, IH. f_equal.
    destruct (UserInit_bucket (snd u)); [| reflexivity].
    simpl. rewrite app_nil_r.
    apply CynaraAdminFacts.listed_uid_UserInit_rule;
      [apply to_unsigned_int_range | exact Hwide
      | apply to_string_not_wildcard, Hwild].
  - apply Forall_forall. intros p Hp.
    apply in_flat_map in Hp. destruct Hp as [u [_ Hp]].
    destruct (UserInit_bucket (snd u)); [| contradiction].
    destruct Hp as [Hp | []]. subst p. right.
    unfold UserInit_rule. simpl pol_user.
    rewrite c_str_to_string, stoul_to_string; [discriminate |].
    apply N.lt_le_trans with (2 ^ 32)%N; [apply to_unsigned_int_range |].
    apply N.pow_le_mono_r; [discriminate | exact Hwide].
Qed.

(** *** [ListUsers] when it fails *)

(** The loop over the policies that stand before one it cannot pass. *)
Lemma ListUsers_loop_app before :
  forall rest listOfUsers,
    Forall (fun p =>
              c_str (pol_user p) = CYNARA_ADMIN_WILDCARD
              \/ stoul ulong_bits (c_str (pol_user p)) <> out_of_range)
           before ->
    ListUsers_loop ulong_bits (before ++ rest) listOfUsers
    = ListUsers_loop ulong_bits rest
        (listOfUsers ++ flat_map (listed_uid ulong_bits) before).
Proof.
  induction before as [| p before IH]; intros rest listOfUsers Hall.
  - simpl. rewrite app_nil_r. reflexivity.
  - apply Forall_cons_iff in Hall. destruct Hall as [Hp Hbefore].
    simpl. unfold listed_uid at 1.
    destruct (String.eqb (c_str (pol_user p)) CYNARA_ADMIN_WILDCARD)
      eqn:Hwild.
    + apply CynaraAdminFacts.wildcard_compare in Hwild. rewrite Hwild.
      apply IH, Hbefore.
    + assert (Hparse :
               stoul ulong_bits (c_str (pol_user p)) <> out_of_range).
      { destruct Hp as [Hw | Hr]; [| exact Hr].
        apply String.eqb_eq in Hw. congruence. }
      destruct (String.compare (c_str (pol_user p))
                  (c_str CYNARA_ADMIN_WILDCARD)) eqn:Hcmp.
      * apply CynaraAdminFacts.wildcard_compare in Hcmp. congruence.
      * destruct (stoul ulong_bits (c_str (pol_user p)));
          [rewrite (IH _ _ Hbefore), <- app_assoc; reflexivity
          | apply IH, Hbefore | contradiction].
      * destruct (stoul ulong_bits (c_str (pol_user p)));
          [rewrite (IH _ _ Hbefore), <- app_assoc; reflexivity
          | apply IH, Hbefore | contradiction].
Qed.

(** X12: [ListUsers] makes its one listing call whatever follows.  When
    the listing fails, the [CynaraException] leaves [ListUsers] and the
    caller's vector is as it was.  When a listed user token other than the
    wildcard is a number above the range of [unsigned long], the
    [std::out_of_range] of [std::stoul] leaves [ListUsers] uncaught, and
    the caller's vector keeps the uids read from the policies listed
    before that one; those listed after it are not read. *)
Theorem ListUsers_failures listOfUsers h :
  (forall e,
      checkCynaraError (reply_code (cynara_admin h ListUsers_call))
      = Throw e ->
      ListUsers cynara_admin ulong_bits (listOfUsers, h)
      = (Throw (Cynara_exn e), (listOfUsers, h ++ [ListUsers_call])))
  /\ (forall b before bad after,
        checkCynaraError (reply_code (cynara_admin h ListUsers_call))
        = Ret b ->
        reply_policies (cynara_admin h ListUsers_call)
        = before ++ bad :: after ->
        Forall (fun p =>
                  c_str (pol_user p) = CYNARA_ADMIN_WILDCARD
                  \/ stoul ulong_bits (c_str (pol_user p))
                     <> out_of_range)
               before ->
        c_str (pol_user bad) <> CYNARA_ADMIN_WILDCARD ->
        stoul ulong_bits (c_str (pol_user bad)) = out_of_range ->
        ListUsers cynara_admin ulong_bits (listOfUsers, h)
        = (Throw std_out_of_range,
           (listOfUsers ++ flat_map (listed_uid ulong_bits) before,
            h ++ [ListUsers_call]))).
Proof.
  split.
  - intros e Hcode. unfold ListUsers.
    rewrite CynaraAdminFacts.ListUsers_listing, Hcode. reflexivity.
  - intros b before bad after Hcode Hlisted Hbefore Hwild Hrange.
    unfold ListUsers.
    rewrite CynaraAdminFacts.ListUsers_listing, Hcode, Hlisted.
    simpl app.
    rewrite (ListUsers_loop_app before (bad :: after) listOfUsers Hbefore).
    simpl. rewrite Hrange.
    destruct (String.compare (c_str (pol_user bad))
                (c_str CYNARA_ADMIN_WILDCARD)) eqn:Hcmp;
      [| reflexivity | reflexivity].
    apply CynaraAdminFacts.wildcard_compare, String.eqb_eq in Hcmp.
    contradiction.
Qed.

End Admin.

(** *** The policy descriptions *)

Section Descriptions.

Context `{cynara_error_h}.
Variable cynara_admin_list_policies_descriptions :
  nat -> Z * list cynara_admin_policy_descr.

(** The loop that extracts the strings, map by map. *)
Lemma store_descriptions descriptions :
  forall c,
    TypeToDescription (fold_left store_description descriptions c)
    = fold_left (fun m e => StdMap.set Z.compare (fst e) (snd e) m)
        (map description_entry descriptions) (TypeToDescription c)
    /\ DescriptionToType (fold_left store_description descriptions c)
       = fold_left (fun m e => StdMap.set String.compare (fst e) (snd e) m)
           (map (fun d => (c_str (descr_name d), descr_result d))
              descriptions)
           (DescriptionToType c)
    /\ descriptions_listed (fold_left store_description descriptions c)
       = descriptions_listed c
    /\ m_policyDescriptionsInitialized
         (fold_left store_description descriptions c)
       = m_policyDescriptionsInitialized c.
Proof.
  induction descriptions as [| d descriptions IH]; intros c; simpl.
  - repeat split.
  - destruct (IH (store_description c d)) as [Htype [Hname [Hcount Hflag]]].
    rewrite Htype, Hname, Hcount, Hflag. repeat split.
Qed.

Lemma Fetch_refreshes forceRefresh c code d ds b :
  forceRefresh = true \/ m_policyDescriptionsInitialized c = false ->
  cynara_admin_list_policies_descriptions (descriptions_listed c)
  = (code, d :: ds) ->
  checkCynaraError code = Ret b ->
  FetchCynaraPolicyDescriptions
    cynara_admin_list_policies_descriptions forceRefresh c
  = (Ret tt, refreshed (d :: ds) (descriptions_listed c)).
Proof.
  intros Hasked Hlisting Hcode.
  unfold FetchCynaraPolicyDescriptions.
  assert (Hskip :
            (negb forceRefresh && m_policyDescriptionsInitialized c)%bool
            = false).
  { destruct Hasked as [Hforce | Hfresh];
      [rewrite Hforce | rewrite Hfresh, andb_false_r]; reflexivity. }
  rewrite Hskip, Hlisting, Hcode.
  destruct (store_descriptions (d :: ds)
              (mkCache false (StdMap.empty Z string)
                 (StdMap.empty string Z)
                 (descriptions_listed
                    (mkCache (m_policyDescriptionsInitialized c)
                       (TypeToDescription c) (DescriptionToType c)
                       (S (descriptions_listed c))))))
    as [Htype [Hname [Hcount _]]].
  cbv zeta. rewrite Htype, Hname, Hcount. reflexivity.
Qed.

Lemma Fetch_initialized c :
  m_policyDescriptionsInitialized c = true ->
  FetchCynaraPolicyDescriptions
    cynara_admin_list_policies_descriptions false c
  = (Ret tt, c).
Proof.
  intros Hinit. unfold FetchCynaraPolicyDescriptions.
  rewrite Hinit. reflexivity.
Qed.

(** X13: after one listing that succeeded and was not empty, the cache is
    marked initialised, and from then on a fetch that is not forced, a
    conversion that is not forced (in either direction) and
    [ListPoliciesDescriptions] make no call on Cynara and leave the cache
    as it is. *)
Theorem descriptions_are_listed_once forceRefresh c code d ds b c1 :
  forceRefresh = true \/ m_policyDescriptionsInitialized c = false ->
  cynara_admin_list_policies_descriptions (descriptions_listed c)
  = (code, d :: ds) ->
  checkCynaraError code = Ret b ->
  c1 = snd (FetchCynaraPolicyDescriptions
              cynara_admin_list_policies_descriptions forceRefresh c) ->
  m_policyDescriptionsInitialized c1 = true
  /\ descriptions_listed c1 = S (descriptions_listed c)
  /\ FetchCynaraPolicyDescriptions
       cynara_admin_list_policies_descriptions false c1
     = (Ret tt, c1)
  /\ (forall policyType,
        snd (convertToPolicyDescription
               cynara_admin_list_policies_descriptions policyType false c1)
        = c1)
  /\ (forall policy,
        snd (convertToPolicyType
               cynara_admin_list_policies_descriptions policy false c1)
        = c1)
  /\ (forall policiesDescriptions,
        snd (ListPoliciesDescriptions
               cynara_admin_list_policies_descriptions
               policiesDescriptions c1)
        = c1).
Proof.
  intros Hasked Hlisting Hcode Hc1.
  rewrite (Fetch_refreshes forceRefresh c code d ds b Hasked Hlisting Hcode)
    in Hc1.
  cbn [snd] in Hc1.
  assert (Hinit : m_policyDescriptionsInitialized c1 = true)
    by (rewrite Hc1; reflexivity).
  pose proof (Fetch_initialized c1 Hinit) as Hkept.
  split; [exact Hinit |]. split; [rewrite Hc1; reflexivity |].
  split; [exact Hkept |].
  split; [| split].
  - intros policyType.
    unfold convertToPolicyDescription, bind, fetch. rewrite Hkept.
    destruct (StdMap.at_ Z.compare policyType (TypeToDescription c1));
      reflexivity.
  - intros policy.
    unfold convertToPolicyType, bind, fetch. rewrite Hkept.
    destruct (StdMap.at_ String.compare policy (DescriptionToType c1));
      reflexivity.
  - intros policiesDescriptions.
    unfold ListPoliciesDescriptions, bind. rewrite Hkept. reflexivity.
Qed.

(** X14: a listing that fails, or that succeeds with an empty list, costs
    one call and leaves the flag and both maps as they were: a cache that
    was not initialised stays so, and a forced refresh that fails keeps
    the descriptions fetched before.  The failure leaves the fetch as the
    [CynaraException] of the return code; the empty list makes it return
    normally. *)
Theorem Fetch_failed_or_empty_keeps_cache forceRefresh c code descriptions :
  forceRefresh = true \/ m_policyDescriptionsInitialized c = false ->
  cynara_admin_list_policies_descriptions (descriptions_listed c)
  = (code, descriptions) ->
  (forall b, checkCynaraError code = Ret b -> descriptions = []) ->
  FetchCynaraPolicyDescriptions
    cynara_admin_list_policies_descriptions forceRefresh c
  = (match checkCynaraError code with
     | Ret _ => Ret tt
     | Throw e => Throw e
     end,
     mkCache (m_policyDescriptionsInitialized c) (TypeToDescription c)
       (DescriptionToType c) (S (descriptions_listed c))).
Proof.
  intros Hasked Hlisting Hempty.
  unfold FetchCynaraPolicyDescriptions.
  assert (Hskip :
            (negb forceRefresh && m_policyDescriptionsInitialized c)%bool
            = false).
  { destruct Hasked as [Hforce | Hfresh];
      [rewrite Hforce | rewrite Hfresh, andb_false_r]; reflexivity. }
  rewrite Hskip, Hlisting.
  destruct (checkCynaraError code) as [b | e] eqn:Hcode.
  - rewrite (Hempty b eq_refl). reflexivity.
  - reflexivity.
Qed.

Lemma find_code k descriptions :
  find (fun e : Z * string =>
          match Z.compare (fst e) k with Eq => true | _ => false end)
       (map description_entry descriptions)
  = option_map description_entry
      (find (fun d => (descr_result d =? k)%Z) descriptions).
Proof.
  induction descriptions as [| d descriptions IH]; simpl.
  - reflexivity.
  - rewrite Z.eqb_compare.
    destruct (Z.compare (descr_result d) k); [reflexivity | exact IH ..].
Qed.

Lemma find_name k descriptions :
  find (fun e : string * Z =>
          match String.compare (fst e) k with Eq => true | _ => false end)
       (map (fun d => (c_str (descr_name d), descr_result d)) descriptions)
  = option_map (fun d => (c_str (descr_name d), descr_result d))
      (find (fun d => String.eqb (c_str (descr_name d)) k) descriptions).
Proof.
  induction descriptions as [| d descriptions IH]; simpl.
  - reflexivity.
  - destruct (String.compare (c_str (descr_name d)) k) eqn:Hcmp.
    + apply compare_Eq_iff, String.eqb_eq in Hcmp. rewrite Hcmp.
      reflexivity.
    + assert (Hneq : String.eqb (c_str (descr_name d)) k = false).
      { apply String.eqb_neq. intros Heq.
        apply compare_Eq_iff in Heq. congruence. }
      rewrite Hneq. exact IH.
    + assert (Hneq : String.eqb (c_str (descr_name d)) k = false).
      { apply String.eqb_neq. intros Heq.
        apply compare_Eq_iff in Heq. congruence. }
      rewrite Hneq. exact IH.
Qed.

(** What [at] finds in the maps of a refreshed cache. *)
Lemma refreshed_TypeToDescription descriptions listed policyType :
  StdMap.at_ Z.compare policyType
    (TypeToDescription (refreshed descriptions listed))
  = option_map (fun d => c_str (descr_name d))
      (find (fun d => (descr_result d =? policyType)%Z)
         (rev descriptions)).
Proof.
  unfold refreshed. cbn [TypeToDescription].
  rewrite (StdMapFacts.at_assignments Z string Z.compare
             Z.compare_eq_iff).
  rewrite <- map_rev, find_code.
  destruct (find _ (rev descriptions)); reflexivity.
Qed.

Lemma refreshed_DescriptionToType descriptions listed policy :
  StdMap.at_ String.compare policy
    (DescriptionToType (refreshed descriptions listed))
  = option_map descr_result
      (find (fun d => String.eqb (c_str (descr_name d)) policy)
         (rev descriptions)).
Proof.
  unfold refreshed. cbn [DescriptionToType].
  rewrite (StdMapFacts.at_assignments string Z String.compare
             compare_Eq_iff).
  rewrite <- map_rev, find_name.
  destruct (find _ (rev descriptions)); reflexivity.
Qed.

(** X15: when the conversion of a policy code has the descriptions listed
    and the listing succeeds and is not empty, it returns the name, read
    as a C string, of the last listed description that has this code, and
    throws [std::out_of_range] when no listed description has it --
    whatever the cache held for the code before. *)
Theorem convertToPolicyDescription_after_listing
    policyType forceRefresh c code d ds b :
  forceRefresh = true \/ m_policyDescriptionsInitialized c = false ->
  cynara_admin_list_policies_descriptions (descriptions_listed c)
  = (code, d :: ds) ->
  checkCynaraError code = Ret b ->
  fst (convertToPolicyDescription cynara_admin_list_policies_descriptions
         policyType forceRefresh c)
  = match find (fun d' => (descr_result d' =? policyType)%Z)
            (rev (d :: ds)) with
    | Some d' => Ret (c_str (descr_name d'))
    | None => Throw std_out_of_range
    end.
Proof.
  intros Hasked Hlisting Hcode.
  unfold convertToPolicyDescription, bind, fetch.
  rewrite (Fetch_refreshes forceRefresh c code d ds b Hasked Hlisting Hcode).
  rewrite refreshed_TypeToDescription.
  destruct (find _ (rev (d :: ds))); reflexivity.
Qed.

(** X16: when the conversion of a policy name has the descriptions listed
    and the listing succeeds and is not empty, it returns the code of the
    last listed description whose name, read as a C string, is the one
    asked for, and throws [std::out_of_range] when no listed description
    has this name. *)
Theorem convertToPolicyType_after_listing
    policy forceRefresh c code d ds b :
  forceRefresh = true \/ m_policyDescriptionsInitialized c = false ->
  cynara_admin_list_policies_descriptions (descriptions_listed c)
  = (code, d :: ds) ->
  checkCynaraError code = Ret b ->
  fst (convertToPolicyType cynara_admin_list_policies_descriptions
         policy forceRefresh c)
  = match find (fun d' => String.eqb (c_str (descr_name d')) policy)
            (rev (d :: ds)) with
    | Some d' => Ret (descr_result d')
    | None => Throw std_out_of_range
    end.
Proof.
  intros Hasked Hlisting Hcode.
  unfold convertToPolicyType, bind, fetch.
  rewrite (Fetch_refreshes forceRefresh c code d ds b Hasked Hlisting Hcode).
  rewrite refreshed_DescriptionToType.
  destruct (find _ (rev (d :: ds))); reflexivity.
Qed.

(** In a list without two members of the same key, looking for the key of
    a member finds this member. *)
Lemma find_unique {A B} (key : A -> B) (same : B -> B -> bool) l x :
  (forall a b, same a b = true <-> a = b) ->
  NoDup (map key l) -> In x l ->
  find (fun y => same (key y) (key x)) l = Some x.
Proof.
  intros Hsame. induction l as [| y l IH]; intros Hnodup Hin.
  - contradiction.
  - simpl in Hnodup. apply NoDup_cons_iff in Hnodup.
    destruct Hnodup as [Hfresh Hnodup]. simpl.
    destruct (same (key y) (key x)) eqn:Hyx.
    + destruct Hin as [Heq | Hin]; [congruence |].
      apply Hsame in Hyx. exfalso. apply Hfresh. rewrite Hyx.
      apply in_map, Hin.
    + destruct Hin as [Heq | Hin]; [| apply IH; assumption].
      subst y. rewrite (proj2 (Hsame (key x) (key x)) eq_refl) in Hyx.
      discriminate.
Qed.

Lemma NoDup_map_rev {A B} (f : A -> B) l :
  NoDup (map f l) -> NoDup (map f (rev l)).
Proof.
  intros Hnodup. rewrite map_rev.
  apply (Permutation_NoDup (Permutation_rev (map f l))). exact Hnodup.
Qed.

(** X17: when Cynara lists descriptions that differ in their codes and in
    their names, the two conversions are inverse to each other on what
    was listed: once the listing is in the cache, the code of a listed
    description converts to its name and this name converts back to the
    code, without another call. *)
Theorem conversions_round_trip c code d ds b d' :
  m_policyDescriptionsInitialized c = false ->
  cynara_admin_list_policies_descriptions (descriptions_listed c)
  = (code, d :: ds) ->
  checkCynaraError code = Ret b ->
  NoDup (map descr_result (d :: ds)) ->
  NoDup (map (fun d => c_str (descr_name d)) (d :: ds)) ->
  In d' (d :: ds) ->
  convertToPolicyDescription cynara_admin_list_policies_descriptions
    (descr_result d') false c
  = (Ret (c_str (descr_name d')), refreshed (d :: ds) (descriptions_listed c))
  /\ convertToPolicyType cynara_admin_list_policies_descriptions
       (c_str (descr_name d')) false
       (refreshed (d :: ds) (descriptions_listed c))
     = (Ret (descr_result d'), refreshed (d :: ds) (descriptions_listed c)).
Proof.
  intros Hfresh Hlisting Hcode Hcodes Hnames Hin.
  split.
  - unfold convertToPolicyDescription, bind, fetch.
    rewrite (Fetch_refreshes false c code d ds b (or_intror Hfresh)
               Hlisting Hcode).
    rewrite refreshed_TypeToDescription.
    rewrite (find_unique descr_result Z.eqb (rev (d :: ds)) d' Z.eqb_eq);
      [reflexivity | apply NoDup_map_rev, Hcodes
      | apply in_rev; rewrite rev_involutive; exact Hin].
  - unfold convertToPolicyType, bind, fetch.
    rewrite Fetch_initialized; [| reflexivity].
    rewrite refreshed_DescriptionToType.
    rewrite (find_unique (fun d => c_str (descr_name d)) String.eqb
               (rev (d :: ds)) d' String.eqb_eq);
      [reflexivity | apply NoDup_map_rev, Hnames
      | apply in_rev; rewrite rev_involutive; exact Hin].
Qed.

(** X18: when [ListPoliciesDescriptions] has the descriptions listed and
    the listing succeeds and is not empty, it appends to the caller's
    vector the names held by [TypeToDescription], which holds one entry
    per listed code: the code with the name, read as a C string, of the
    last listed description that has this code. *)
Theorem ListPoliciesDescriptions_one_name_per_code
    policiesDescriptions c code d ds b :
  m_policyDescriptionsInitialized c = false ->
  cynara_admin_list_policies_descriptions (descriptions_listed c)
  = (code, d :: ds) ->
  checkCynaraError code = Ret b ->
  fst (ListPoliciesDescriptions cynara_admin_list_policies_descriptions
         policiesDescriptions c)
  = Ret (policiesDescriptions
         ++ map snd
              (TypeToDescription
                 (refreshed (d :: ds) (descriptions_listed c))))
  /\ NoDup
       (map fst
          (TypeToDescription (refreshed (d :: ds) (descriptions_listed c))))
  /\ (forall policyType name,
        In (policyType, name)
           (TypeToDescription (refreshed (d :: ds) (descriptions_listed c)))
        <-> exists d',
            find (fun d' => (descr_result d' =? policyType)%Z)
                 (rev (d :: ds)) = Some d'
            /\ name = c_str (descr_name d')).
Proof.
  intros Hfresh Hlisting Hcode.
  assert (Hsorted :
            Sorted Z.lt
              (map fst
                 (TypeToDescription
                    (refreshed (d :: ds) (descriptions_listed c))))).
  { unfold refreshed. cbn [TypeToDescription].
    apply StdMapFacts.assignments_Sorted. constructor. }
  split; [| split].
  - unfold ListPoliciesDescriptions, bind.
    rewrite (Fetch_refreshes false c code d ds b (or_intror Hfresh)
               Hlisting Hcode).
    cbn [fst]. f_equal.
    apply (CynaraAdminFacts.push_back_all snd).
  - apply StdMapFacts.Sorted_lt_NoDup, Hsorted.
  - intros policyType name.
    rewrite (StdMapFacts.at_In_Sorted _ policyType name Hsorted).
    rewrite refreshed_TypeToDescription.
    destruct (find _ (rev (d :: ds))) as [d' |]; simpl; split.
    + intros Heq. exists d'. split; [reflexivity | congruence].
    + intros [d2 [Hd2 Hname]]. congruence.
    + discriminate.
    + intros [d2 [Hd2 _]]. discriminate.
Qed.

End Descriptions.

#[local] Existing Instance libcynara_error_h.
#[local] Existing Instance libcynara_admin_types_h.

Lemma ListUsers_reads_back_UserInit_witness :
  ListUsers lists_what_was_set 64
    ([7%N],
     UserInit_each lists_what_was_set
       [(5001%N, SM_USER_TYPE_NORMAL); (9%N, SM_USER_TYPE_ANY);
        (4294967297%N, SM_USER_TYPE_ADMIN)] [])
  = (Ret tt,
     ([7; 5001; 1]%N,
      UserInit_each lists_what_was_set
        [(5001%N, SM_USER_TYPE_NORMAL); (9%N, SM_USER_TYPE_ANY);
         (4294967297%N, SM_USER_TYPE_ADMIN)] []
      ++ [ListUsers_call])).
Proof.
  apply (ListUsers_reads_back_UserInit lists_what_was_set 64
           [(5001%N, SM_USER_TYPE_NORMAL); (9%N, SM_USER_TYPE_ANY);
            (4294967297%N, SM_USER_TYPE_ADMIN)] [7%N]).
  - discriminate.
  - reflexivity.
  - exists true. reflexivity.
  - reflexivity.
Defined.

(** A listing whose second user token is above the range of a 64-bit
    [unsigned long]. *)
Lemma ListUsers_failures_witness :
  ListUsers
    (fun _ _ =>
       mkReply 0
         [mkPolicy "MAIN" "*" "5001" "*" 65534
            (Some "USER_TYPE_NORMAL"%string);
          mkPolicy "MAIN" "*" "99999999999999999999" "*" 65534
            (Some "USER_TYPE_NORMAL"%string);
          mkPolicy "MAIN" "*" "5002" "*" 65534
            (Some "USER_TYPE_NORMAL"%string)])
    64 ([7%N], [])
  = (Throw std_out_of_range, ([7; 5001]%N, [ListUsers_call])).
Proof.
  destruct (ListUsers_failures
              (fun _ _ =>
                 mkReply 0
                   [mkPolicy "MAIN" "*" "5001" "*" 65534
                      (Some "USER_TYPE_NORMAL"%string);
                    mkPolicy "MAIN" "*" "99999999999999999999" "*" 65534
                      (Some "USER_TYPE_NORMAL"%string);
                    mkPolicy "MAIN" "*" "5002" "*" 65534
                      (Some "USER_TYPE_NORMAL"%string)])
              64 [7%N] []) as [_ Hrange].
  apply (Hrange true
           [mkPolicy "MAIN" "*" "5001" "*" 65534
              (Some "USER_TYPE_NORMAL"%string)]
           (mkPolicy "MAIN" "*" "99999999999999999999" "*" 65534
              (Some "USER_TYPE_NORMAL"%string))
           [mkPolicy "MAIN" "*" "5002" "*" 65534
              (Some "USER_TYPE_NORMAL"%string)]).
  - reflexivity.
  - reflexivity.
  - constructor; [right; discriminate | constructor].
  - discriminate.
  - reflexivity.
Defined.

Lemma descriptions_are_listed_once_witness :
  snd (convertToPolicyDescription lists_three_descriptions 10 false
         (refreshed (snd (lists_three_descriptions 0)) 0))
  = refreshed (snd (lists_three_descriptions 0)) 0.
Proof.
  destruct (descriptions_are_listed_once lists_three_descriptions
              false (mkCache false [] [] 0) 0
              (mkDescr 65535 "Allow")
              [mkDescr 0 "Deny"; mkDescr 10 "Ask user"] true
              (refreshed (snd (lists_three_descriptions 0)) 0))
    as [_ [_ [_ [Hkept _]]]];
    [right; reflexivity | reflexivity | reflexivity | reflexivity |].
  apply Hkept.
Defined.

Lemma Fetch_failed_or_empty_keeps_cache_witness :
  FetchCynaraPolicyDescriptions lists_no_description true
    (refreshed (snd (lists_three_descriptions 0)) 0)
  = (Throw CynaraException.ServiceNotAvailable,
     mkCache true
       [(0%Z, "Deny"%string); (10%Z, "Ask user"%string);
        (65535%Z, "Allow"%string)]
       [("Allow"%string, 65535%Z); ("Ask user"%string, 10%Z);
        ("Deny"%string, 0%Z)]
       2).
Proof.
  exact (Fetch_failed_or_empty_keeps_cache lists_no_description true
           (refreshed (snd (lists_three_descriptions 0)) 0) (-5) []
           (or_introl eq_refl) eq_refl (fun b _ => eq_refl)).
Defined.

Lemma convertToPolicyDescription_after_listing_witness :
  fst (convertToPolicyDescription lists_three_descriptions 65535 false
         (mkCache false [] [] 0))
  = Ret "Allow"%string.
Proof.
  apply (convertToPolicyDescription_after_listing lists_three_descriptions
           65535 false (mkCache false [] [] 0) 0
           (mkDescr 65535 "Allow")
           [mkDescr 0 "Deny"; mkDescr 10 "Ask user"] true).
  - right. reflexivity.
  - reflexivity.
  - reflexivity.
Defined.

Lemma convertToPolicyType_after_listing_witness :
  fst (convertToPolicyType lists_three_descriptions "Allowed" false
         (mkCache false [] [] 0))
  = Throw std_out_of_range.
Proof.
  apply (convertToPolicyType_after_listing lists_three_descriptions
           "Allowed"%string false (mkCache false [] [] 0) 0
           (mkDescr 65535 "Allow")
           [mkDescr 0 "Deny"; mkDescr 10 "Ask user"] true).
  - right. reflexivity.
  - reflexivity.
  - reflexivity.
Defined.

Lemma conversions_round_trip_witness :
  convertToPolicyDescription lists_three_descriptions 10 false
    (mkCache false [] [] 0)
  = (Ret "Ask user"%string,
     refreshed (snd (lists_three_descriptions 0)) 0)
  /\ convertToPolicyType lists_three_descriptions "Ask user" false
       (refreshed (snd (lists_three_descriptions 0)) 0)
     = (Ret 10%Z, refreshed (snd (lists_three_descriptions 0)) 0).
Proof.
  apply (conversions_round_trip lists_three_descriptions
           (mkCache false [] [] 0) 0
           (mkDescr 65535 "Allow")
           [mkDescr 0 "Deny"; mkDescr 10 "Ask user"] true
           (mkDescr 10 "Ask user")).
  - reflexivity.
  - reflexivity.
  - reflexivity.
  - repeat constructor; simpl; intuition discriminate.
  - repeat constructor; simpl; intuition discriminate.
  - right. right. left. reflexivity.
Defined.

Lemma ListPoliciesDescriptions_one_name_per_code_witness :
  fst (ListPoliciesDescriptions lists_three_descriptions
         ["Remember"%string] (mkCache false [] [] 0))
  = Ret ["Remember"; "Deny"; "Ask user"; "Allow"]%string.
Proof.
  destruct (ListPoliciesDescriptions_one_name_per_code
              lists_three_descriptions ["Remember"%string]
              (mkCache false [] [] 0) 0
              (mkDescr 65535 "Allow")
              [mkDescr 0 "Deny"; mkDescr 10 "Ask user"] true)
    as [Hlist _]; [reflexivity | reflexivity | reflexivity |].
  exact Hlist.
Defined.

End CynaraAdminCoverage.

(** ** More of [Cynara] *)

Module CynaraCoverage.

Import Cynara.

Section Client.

Context `{cynara_error_h}.

Local Open Scope Z_scope.

Variable cynara_async : list ClientCall -> ClientCall -> ClientReply.
Variable completion :
  cynara_check_id -> option (cynara_async_call_cause * Z).

(** *** [check] after a cache miss *)

(** X19: when the cache lookup misses and the request cannot be created,
    [check] throws the [CynaraException] of the return code of
    [cynara_async_create_request]; it has made the lookup and the request
    call and nothing more: the worker is not woken and nobody waits. *)
Theorem check_request_not_created label privilege user session h e :
  client_code
    (cynara_async h
       (cynara_async_check_cache (c_str label) (c_str session)
          (c_str user) (c_str privilege)))
  = CYNARA_API_CACHE_MISS ->
  checkCynaraError
    (client_code
       (cynara_async
          (h ++ [cynara_async_check_cache (c_str label) (c_str session)
                   (c_str user) (c_str privilege)])
          (cynara_async_create_request (c_str label) (c_str session)
             (c_str user) (c_str privilege))))
  = Throw e ->
  check cynara_async completion label privilege user session h
  = (Some (Throw e),
     h ++ [cynara_async_check_cache (c_str label) (c_str session)
             (c_str user) (c_str privilege);
           cynara_async_create_request (c_str label) (c_str session)
             (c_str user) (c_str privilege)]).
Proof.
  intros Hmiss Hrefused.
  unfold check, check_async, client_call.
  rewrite Hmiss, Z.eqb_refl. cbn [negb].
  rewrite Hrefused, <- app_assoc. reflexivity.
Qed.

(** X20: when the cache lookup misses and the request is created, [check]
    wakes the worker by one write to the eventfd and waits.  It waits for
    ever if the request is never completed.  If the request is answered,
    [check] returns [false] for the response 0 and [true] for every other
    response; if it is cancelled or Cynara is finished, [check] returns
    whether [CYNARA_API_ACCESS_DENIED] differs from 0; if the service is
    not available, [check] throws [ServiceNotAvailable]. *)
Theorem check_waits_for_the_completion label privilege user session h b :
  client_code
    (cynara_async h
       (cynara_async_check_cache (c_str label) (c_str session)
          (c_str user) (c_str privilege)))
  = CYNARA_API_CACHE_MISS ->
  checkCynaraError
    (client_code
       (cynara_async
          (h ++ [cynara_async_check_cache (c_str label) (c_str session)
                   (c_str user) (c_str privilege)])
          (cynara_async_create_request (c_str label) (c_str session)
             (c_str user) (c_str privilege))))
  = Ret b ->
  check cynara_async completion label privilege user session h
  = (match
       completion
         (client_check_id
            (cynara_async
               (h ++ [cynara_async_check_cache (c_str label)
                        (c_str session) (c_str user) (c_str privilege)])
               (cynara_async_create_request (c_str label) (c_str session)
                  (c_str user) (c_str privilege))))
     with
     | None => None
     | Some (CYNARA_CALL_CAUSE_ANSWER, response) =>
         Some (Ret (negb (response =? 0)))
     | Some (CYNARA_CALL_CAUSE_SERVICE_NOT_AVAILABLE, _) =>
         Some (Throw CynaraException.ServiceNotAvailable)
     | Some (_, _) => Some (Ret (negb (CYNARA_API_ACCESS_DENIED =? 0)))
     end,
     h ++ [cynara_async_check_cache (c_str label) (c_str session)
             (c_str user) (c_str privilege);
           cynara_async_create_request (c_str label) (c_str session)
             (c_str user) (c_str privilege);
           eventfd_write]).
Proof.
  intros Hmiss Hcreated.
  unfold check, check_async, client_call, threadNotifyPut.
  rewrite Hmiss, Z.eqb_refl. cbn [negb].
  rewrite Hcreated, <- !app_assoc. cbn [app].
  destruct (completion _) as [[cause response] |]; [| reflexivity].
  destruct cause; reflexivity.
Qed.

(** *** The worker thread *)

(** One return of [poll] that does not end the thread. *)
Lemma run_goes_on w rest (h : list WorkerCall) :
  stops w = false ->
  run (w :: rest) h = run rest (h ++ wakeup_calls w).
Proof.
  unfold stops, wakeup_calls, threadNotifyGet. cbn [run].
  unfold threadNotifyGet.
  destruct (poll_ret w =? -1); cbn [negb andb].
  - intros _. rewrite app_nil_r. reflexivity.
  - destruct (revents0 w =? 0); cbn [negb andb].
    + intros _.
      destruct (revents1 w =? 0); cbn [negb app].
      * rewrite app_nil_r. reflexivity.
      * destruct (checkCynaraError (process_ret w)); reflexivity.
    + intros Hgoes. rewrite Hgoes.
      destruct (revents1 w =? 0); cbn [negb app].
      * reflexivity.
      * rewrite <- app_assoc.
        destruct (checkCynaraError (process_ret w)); reflexivity.
Qed.

(** X21: as long as no return of [poll] finds the eventfd ready with the
    terminate flag set, the worker thread does not return: after each
    return of [poll] that did not fail it reads the eventfd if that is
    ready and calls [cynara_async_process] if the Cynara descriptor is
    ready, and it goes back to [poll] whatever [cynara_async_process]
    returned; after a failed [poll] it makes no call.  A terminate flag
    set while the eventfd is not ready does not end it. *)
Theorem run_goes_on_until_stopped wakeups :
  forall h,
    Forall (fun w => stops w = false) wakeups ->
    run wakeups h = (false, h ++ flat_map wakeup_calls wakeups).
Proof.
  induction wakeups as [| w rest IH]; intros h Hgo.
  - simpl. rewrite app_nil_r. reflexivity.
  - apply Forall_cons_iff in Hgo. destruct Hgo as [Hw Hrest].
    rewrite (run_goes_on w rest h Hw), (IH _ Hrest).
    cbn [flat_map]. rewrite app_assoc. reflexivity.
Qed.

(** X22: the worker thread returns at the first return of [poll] that did
    not fail and finds the eventfd ready and the terminate flag set; the
    last thing it does is to read the eventfd, it does not call
    [cynara_async_process] at that return even when the Cynara
    descriptor is ready, and later returns of [poll] are not looked
    at. *)
Theorem run_returns_at_first_stop before w after h :
  Forall (fun w => stops w = false) before ->
  stops w = true ->
  run (before ++ w :: after) h
  = (true, h ++ flat_map wakeup_calls before ++ [eventfd_read]).
Proof.
  revert h.
  induction before as [| w0 before IH]; intros h Hgo Hstop.
  - unfold stops in Hstop. cbn [app run flat_map].
    destruct (poll_ret w =? -1); [discriminate |].
    destruct (revents0 w =? 0); [discriminate |].
    cbn [negb andb] in *. rewrite Hstop. reflexivity.
  - apply Forall_cons_iff in Hgo. destruct Hgo as [Hw0 Hbefore].
    cbn [app]. rewrite (run_goes_on w0 _ h Hw0), (IH _ Hbefore Hstop).
    cbn [flat_map]. rewrite <- !app_assoc. reflexivity.
Qed.

End Client.

#[local] Existing Instance libcynara_error_h.

Lemma check_request_not_created_witness :
  check (fun _ c =>
           match c with
           | cynara_async_check_cache _ _ _ _ => mkClientReply (-1) 0%Z
           | _ => mkClientReply (-2) 0%Z
           end)
        (fun _ => None) "app" "camera" "5001" "session" []
  = (Some (Throw CynaraException.MaxPendingRequests),
     [cynara_async_check_cache "app" "session" "5001" "camera";
      cynara_async_create_request "app" "session" "5001" "camera"]).
Proof.
  apply (check_request_not_created
           (fun _ c =>
              match c with
              | cynara_async_check_cache _ _ _ _ => mkClientReply (-1) 0%Z
              | _ => mkClientReply (-2) 0%Z
              end)
           (fun _ => None) "app"%string "camera"%string "5001"%string
           "session"%string [] CynaraException.MaxPendingRequests);
    reflexivity.
Defined.

(** A request that Cynara answers with [CYNARA_API_ACCESS_DENIED]. *)
Lemma check_waits_for_the_completion_witness :
  check (fun _ c =>
           match c with
           | cynara_async_check_cache _ _ _ _ => mkClientReply (-1) 0%Z
           | _ => mkClientReply 0 7%Z
           end)
        (fun _ => Some (CYNARA_CALL_CAUSE_ANSWER, 1%Z))
        "app" "camera" "5001" "session" []
  = (Some (Ret true),
     [cynara_async_check_cache "app" "session" "5001" "camera";
      cynara_async_create_request "app" "session" "5001" "camera";
      eventfd_write]).
Proof.
  apply (check_waits_for_the_completion
           (fun _ c =>
              match c with
              | cynara_async_check_cache _ _ _ _ => mkClientReply (-1) 0%Z
              | _ => mkClientReply 0 7%Z
              end)
           (fun _ => Some (CYNARA_CALL_CAUSE_ANSWER, 1%Z))
           "app"%string "camera"%string "5001"%string "session"%string
           [] true);
    reflexivity.
Defined.

(** A failed [poll], a wake-up by the eventfd, and a Cynara descriptor
    whose processing fails while the terminate flag is set but the
    eventfd is not ready. *)
Lemma run_goes_on_until_stopped_witness :
  run [mkWakeup (-1) 1 1 true 0; mkWakeup 1 1 0 false 0;
       mkWakeup 1 0 1 true (-5)] []
  = (false, [eventfd_read; cynara_async_process]).
Proof.
  apply (run_goes_on_until_stopped
           [mkWakeup (-1) 1 1 true 0; mkWakeup 1 1 0 false 0;
            mkWakeup 1 0 1 true (-5)] []).
  repeat constructor.
Defined.

Lemma run_returns_at_first_stop_witness :
  run ([mkWakeup 1 0 1 true (-5)]
       ++ mkWakeup 2 1 1 true 0 :: [mkWakeup 1 0 1 false 0]) []
  = (true, [cynara_async_process; eventfd_read]).
Proof.
  apply (run_returns_at_first_stop
           [mkWakeup 1 0 1 true (-5)] (mkWakeup 2 1 1 true 0)
           [mkWakeup 1 0 1 false 0] []).
  - repeat constructor.
  - reflexivity.
Defined.

End CynaraCoverage.
